(** * velite: incremental collection resolution

    A shallow embedding of the build core of velite (the module holding
    [load], [resolve], [watch] and [build]) and of the [markdown] schema
    transform, followed by the properties of the specification that are
    settled against it.

    Asynchronous functions are embedded as state-passing computations over
    a [World] that holds the process-wide mutable maps and an event trace.
    The three [Promise.all] fan-outs are embedded in array order, which is
    the order in which [Promise.all] delivers its results. *)

From Stdlib Require Import ZArith String List DecimalString.
From stdpp Require Import base option list strings gmap.

Set Warnings "-register-all".
Local Open Scope string_scope.

(* ===================================================================== *)
(** ** JavaScript values *)
(* ===================================================================== *)

Module Js.

(** The values a parsed content file and a schema output can hold. Numbers
    are the integers (no NaN, one zero). *)
Inductive Value : Type :=
| VUndefined
| VNull
| VBool (b : bool)
| VNum (z : Z)
| VStr (s : string)
| VArr (items : list Value)
| VObj (fields : list (string * Value)).

(** [Array.isArray(v)] *)
Definition isArray (v : Value) : bool :=
  match v with VArr _ => true | _ => false end.

(** [Boolean(v)]: [undefined], [null], [false], [0] and the empty string
    are falsy, everything else (every array and object included) is
    truthy. *)
Definition truthy (v : Value) : bool :=
  match v with
  | VUndefined | VNull => false
  | VBool b => b
  | VNum z => negb (Z.eqb z 0)
  | VStr s => negb (Nat.eqb (String.length s) 0)
  | VArr _ | VObj _ => true
  end.

(** What one callback result contributes to [xs.flatMap(f)]: an array is
    spliced in (one level), any other value is one element. *)
Definition spliced (v : Value) : list Value :=
  match v with VArr items => items | _ => [v] end.

(** [xs.flatMap(f)] *)
Definition flatMap {A : Type} (f : A → Value) (xs : list A) : list Value :=
  concat (map (fun x => spliced (f x)) xs).

(** [xs[i]] on an array: [undefined] out of range. *)
Definition at_index (xs : list Value) (i : nat) : Value :=
  default VUndefined (xs !! i).

(** A segment of a zod issue path: a property name or an array index. *)
Inductive PathSeg : Type :=
| Key (name : string)
| Idx (index : nat).

Definition seg_to_string (s : PathSeg) : string :=
  match s with
  | Key name => name
  | Idx index => NilEmpty.string_of_uint (Nat.to_uint index)
  end.

(** [path.join('.')] *)
Definition join_path (p : list PathSeg) : string :=
  String.concat "." (map seg_to_string p).

End Js.

(* ===================================================================== *)
(** ** The build core: data model *)
(* ===================================================================== *)

Module Build.
Import Js.

(** A diagnostic of a file: [file.message(reason, { source })]. *)
Record VMessage : Type := mkMessage {
  reason : string;
  source : string
}.

(** [VeliteFile]: the path, the parsed records, the diagnostics and the
    validated result of one content file. *)
Record VeliteFile : Type := mkFile {
  path : string;
  records : Value;
  messages : list VMessage;
  result : Value
}.

(** One issue of a failed [safeParseAsync]. *)
Record ZodIssue : Type := mkIssue {
  issue_message : string;
  issue_path : list PathSeg
}.

Inductive SafeParseResult : Type :=
| ParseSuccess (data : Value)
| ParseFailure (issues : list ZodIssue).

(** What validating one record yields: the [safeParseAsync] result and the
    assets its transforms extracted on the way (the side channel of the
    module [assets]). *)
Record Parsed : Type := mkParsed {
  parse_result : SafeParseResult;
  extracted : list (string * string)
}.

(** [schema.safeParseAsync(item, { path, meta })]: a schema is the function
    of the record, of the context path and of the file it is given. What a
    schema would keep from one validation to the next (the keys of
    [config.cache]) is not part of it. *)
Definition Schema : Type := Value → list PathSeg → VeliteFile → Parsed.

Record Collection : Type := mkCollection {
  pattern : list string;
  schema : Schema;
  single : bool
}.

Record Output : Type := mkOutput {
  data_dir : string;
  assets_dir : string;
  clean : bool
}.

(** The aggregate of a pass: collection name to data. *)
Abbreviation Aggregate := (gmap string Value).

(** What calling a hook does: it returns or it throws. *)
Inductive HookResult (A : Type) : Type :=
| HookReturns (a : A)
| HookThrows (err : string).
Arguments HookReturns {A} a.
Arguments HookThrows {A} err.

(** The resolved configuration. [collections] is [Object.entries] of the
    declared collections, in its order; [prepare] returns a boolean or
    nothing; the mutable [config.cache] lives in the [World]. *)
Record Config : Type := mkConfig {
  root : string;
  configPath : string;
  configImports : list string;
  output : Output;
  collections : list (string * Collection);
  prepare : option (Aggregate → HookResult (option bool));
  complete : option (Aggregate → HookResult unit);
  strict : bool
}.

(** [collections[name]] *)
Fixpoint collection_of (cs : list (string * Collection)) (name : string)
  : option Collection :=
  match cs with
  | [] => None
  | (n, c) :: rest => if String.eqb n name then Some c else collection_of rest name
  end.

(* ===================================================================== *)
(** ** Events, world and the computation type *)
(* ===================================================================== *)

Inductive Level : Type := LLog | LInfo | LWarn.

(** The lines the module hands to the logger, one constructor per
    template. *)
Inductive LogLine : Type :=
| ResolvingFrom (root : string)
| SkippedResolve (name : string)
| ResolveFiles (count : nat) (pattern : list string)
| Issues (report : string)
| ExpectedSingle (count : nat) (name : string)
| ResolvedData (count : nat) (name : string)
| ExecutedPrepare (shouldOutput : bool)
| PreventOutput
| ExecutedComplete
| ResolvedCollections (count : nat)
| WatchingChanges (root : string)
| ConfigChanged
| Changed (filename : string)
| RebuildFinished
| Caught (err : string)
| CleanedData (dir : string)
| CleanedAssets (dir : string)
| Initialized
| BuildFinished.

(** Build options, [Options] of the module. *)
Record Options : Type := mkOptions {
  opt_config : option string;
  opt_clean : option bool;
  opt_watch : option bool;
  opt_logLevel : option Level;
  opt_strict : option bool
}.

(** Calls to collaborators and logger lines, in program order. *)
Inductive Event : Type :=
| Logged (lvl : Level) (line : LogLine)
| GlobCall (patterns : list string) (cwd : string)
| FileCreate (path : string)
| SafeParse (path : string) (ctx : list PathSeg)
| PrepareCall (aggregate : Aggregate)
| CompleteCall (aggregate : Aggregate)
| OutputData (dir : string) (aggregate : Aggregate)
| OutputAssets (dir : string) (assets : gmap string string)
| OutputEntry (dir : string) (configPath : string)
| LoggerSet (lvl : Level)
| Rm (dir : string)
| Mkdir (dir : string)
| WatcherStart (files : list string) (cwd : string)
| WatcherClose
| BuildCall (options : Options).

(** The mutable state of the process: the module's [resolved] map, the
    per-path map behind [VeliteFile.get], [config.cache], the [assets]
    map, the open watcher (with the configuration its handler closes
    over), and the trace (oldest event first). *)
Record World : Type := mkWorld {
  resolved : gmap string (list VeliteFile);
  loaded : gmap string VeliteFile;
  cache : gmap string string;
  assets : gmap string string;
  watcher : option Config;
  trace : list Event
}.

Inductive Outcome (A : Type) : Type :=
| Fulfilled (a : A)
| Rejected (err : string).
Arguments Fulfilled {A} a.
Arguments Rejected {A} err.

(** An asynchronous computation: it runs on a world and settles. *)
Definition Async (A : Type) : Type := World → Outcome A * World.

Definition ret {A : Type} (a : A) : Async A := fun w => (Fulfilled a, w).

Definition throw {A : Type} (err : string) : Async A := fun w => (Rejected err, w).

Definition bind {A B : Type} (c : Async A) (k : A → Async B) : Async B :=
  fun w =>
    match c w with
    | (Fulfilled a, w') => k a w'
    | (Rejected err, w') => (Rejected err, w')
    end.

Notation "'await' x ':=' c 'in' k" := (bind c (fun x => k))
  (at level 10, x pattern, c at level 100, k at level 200).
Notation "c '>>' k" := (bind c (fun _ => k))
  (at level 100, k at level 200, right associativity).

(** [try { body } catch (err) { handler }] *)
Definition try_catch {A : Type} (body : Async A) (handler : string → Async A)
  : Async A :=
  fun w =>
    match body w with
    | (Fulfilled a, w') => (Fulfilled a, w')
    | (Rejected err, w') => handler err w'
    end.

Definition set_resolved (m : gmap string (list VeliteFile)) (w : World) : World :=
  mkWorld m (loaded w) (cache w) (assets w) (watcher w) (trace w).
Definition set_loaded (m : gmap string VeliteFile) (w : World) : World :=
  mkWorld (resolved w) m (cache w) (assets w) (watcher w) (trace w).
Definition set_cache (m : gmap string string) (w : World) : World :=
  mkWorld (resolved w) (loaded w) m (assets w) (watcher w) (trace w).
Definition set_assets (m : gmap string string) (w : World) : World :=
  mkWorld (resolved w) (loaded w) (cache w) m (watcher w) (trace w).
Definition set_watcher (o : option Config) (w : World) : World :=
  mkWorld (resolved w) (loaded w) (cache w) (assets w) o (trace w).
Definition record (evs : list Event) (w : World) : World :=
  mkWorld (resolved w) (loaded w) (cache w) (assets w) (watcher w) (trace w ++ evs)%list.

(** A step that only changes the world. *)
Definition update (f : World → World) : Async unit := fun w => (Fulfilled tt, f w).

(** A step that only reads the world. *)
Definition read {A : Type} (f : World → A) : Async A := fun w => (Fulfilled (f w), w).

Definition emit (e : Event) : Async unit := update (record [e]).

Definition log (line : LogLine) : Async unit := emit (Logged LLog line).
Definition info (line : LogLine) : Async unit := emit (Logged LInfo line).
Definition warn (line : LogLine) : Async unit := emit (Logged LWarn line).

(** [Promise.all(xs.map(f))], in array order. *)
Fixpoint all {A B : Type} (f : A → Async B) (xs : list A) : Async (list B) :=
  match xs with
  | [] => ret []
  | x :: rest =>
      await y := f x in
      await ys := all f rest in
      ret (y :: ys)
  end.

(** Indexed variant: [Promise.all(xs.map(async (item, index) => ...))],
    counting from [index]. *)
Fixpoint all_indexed {A B : Type} (f : nat → A → Async B) (index : nat) (xs : list A)
  : Async (list B) :=
  match xs with
  | [] => ret []
  | x :: rest =>
      await y := f index x in
      await ys := all_indexed f (S index) rest in
      ret (y :: ys)
  end.

(* ===================================================================== *)
(** ** The program *)
(* ===================================================================== *)

(** [Array.isArray(r) ? r : [r]]: the records of a file as the list
    [load] validates (lines 39 and 40). *)
Definition record_list (r : Value) : list Value :=
  if isArray r then spliced r else [r].

(** The collaborators of the module, as functions. *)
Record Env : Type := mkEnv {
  normalize : string → string;
  join : string → string → string;
  contains : string → list string → bool;
  glob : list string → string → list string;
  readRecords : string → Value;
  reporter : list VeliteFile → string;
  resolveConfig : option string → option bool → option bool → Config
}.

Section Program.

(** Collaborators the module imports: [normalize] and [join] of
    [node:path], [micromatch.contains], [fast-glob] over the content tree
    (with the options the module fixes), the records a loader parses out
    of the file at a path, [reporter] of [vfile-reporter] with
    [quiet: true], and [resolveConfig]. *)
Variable env : Env.

(** Modelled from the spec: [VeliteFile.get] of the module [file], which is
    not among the sources. The File Representation of a path is looked up
    in a process-wide cache keyed by the path. *)
Definition VeliteFile_get (p : string) : Async (option VeliteFile) :=
  read (fun w => loaded w !! p).

(** Modelled from the spec: [VeliteFile.create] of the module [file], which
    is not among the sources. A File Representation is created on load of
    a path with the records extracted from the file, no message and no
    result yet, and becomes the cache entry of that path. *)
Definition VeliteFile_create (config : Config) (p : string) : Async VeliteFile :=
  let meta := mkFile p (readRecords env p) [] VUndefined in
  emit (FileCreate p) >>
  update (fun w => set_loaded (<[p := meta]> (loaded w)) w) >>
  ret meta.

(** The messages [meta.message(issue.message, { source: issue.path.join('.') })]
    adds for the issues of one failed record. *)
Definition issue_messages (issues : list ZodIssue) : list VMessage :=
  map (fun issue => mkMessage (issue_message issue) (join_path (issue_path issue)))
      issues.

(** The callback of [list.map] in [load]: validates one record. It yields
    the value of the callback ([undefined] after a failure) and the
    messages it pushed on [meta]. *)
Definition parse_item (sch : Schema) (meta : VeliteFile) (isArr : bool)
    (index : nat) (item : Value) : Async (Value * list VMessage) :=
  let ctx := if isArr then [Idx index] else [] in
  emit (SafeParse (path meta) ctx) >>
  let r := sch item ctx meta in
  update (fun w => set_assets (foldl (fun m kv => <[kv.1 := kv.2]> m) (assets w) (extracted r)) w) >>
  match parse_result r with
  | ParseSuccess data => ret (data, [])
  | ParseFailure issues => ret (VUndefined, issue_messages issues)
  end.

(** [load(config, path, schema, changed)]. The cache entry of the path is
    the object [load] goes on mutating, so it ends up holding the messages
    and the result. *)
Definition load (config : Config) (path0 : string) (sch : Schema)
    (changed : option string) : Async VeliteFile :=
  let p := normalize env path0 in
  await exists_ :=
    match changed with
    | Some ch => if negb (String.eqb p ch) then VeliteFile_get p else ret None
    | None => ret None
    end in
  match exists_ with
  | Some file => ret file
  | None =>
      await meta := VeliteFile_create config p in
      let isArr := isArray (records meta) in
      let list := record_list (records meta) in
      await parsed := all_indexed (parse_item sch meta isArr) 0 list in
      let values := map fst parsed in
      let meta' := mkFile (path meta) (records meta)
                          (messages meta ++ concat (map snd parsed))%list
                          (if isArr then VArr values else at_index values 0) in
      update (fun w => set_loaded (<[p := meta']> (loaded w)) w) >>
      ret meta'
  end.

(** [resolved.has(name)] *)
Definition has {A : Type} (m : gmap string A) (name : string) : bool :=
  bool_decide (is_Some (m !! name)).

(** Lines 79 to 84 of [resolve]: glob the patterns of a collection, load
    every match and store the list under the name of the collection. *)
Definition rescan (config : Config) (changed : option string)
    (name : string) (c : Collection) : Async (string * list VeliteFile) :=
  emit (GlobCall (pattern c) (root config)) >>
  let paths := glob env (pattern c) (root config) in
  await files := all (fun p => load config p (schema c) changed) paths in
  log (ResolveFiles (length paths) (pattern c)) >>
  update (fun w => set_resolved (<[name := files]> (resolved w)) w) >>
  ret (name, files).

(** The callback of [Object.entries(collections).map] in [resolve]
    (lines 73 to 85). The value of [resolved.get(name)!] is read behind
    [resolved.has(name)]. *)
Definition resolve_collection (config : Config) (changed : option string)
    (entry : string * Collection) : Async (string * list VeliteFile) :=
  let name := entry.1 in
  let c := entry.2 in
  await skip := read (fun w =>
    match changed with
    | Some ch => negb (contains env ch (pattern c)) && has (resolved w) name
    | None => false
    end) in
  if skip then
    log (SkippedResolve name) >>
    await files := read (fun w => default [] (resolved w !! name)) in
    ret (name, files)
  else rescan config changed name c.

(** Lines 72 to 86 of [resolve]: the entries of all collections. *)
Definition resolve_entries (config : Config) (changed : option string)
  : Async (list (string * list VeliteFile)) :=
  all (resolve_collection config changed) (collections config).

(** Lines 88 to 94 of [resolve]: the report over all files, and the strict
    gate. *)
Definition check_report (config : Config) (entries : list (string * list VeliteFile))
  : Async unit :=
  let allFiles := concat (map snd entries) in
  let report := reporter env allFiles in
  if Nat.ltb 0 (String.length report) then
    warn (Issues report) >>
    if strict config then throw "Schema validation failed." else ret tt
  else ret tt.

(** [files.flatMap(file => file.result).filter(Boolean)] *)
Definition collect (files : list VeliteFile) : list Value :=
  List.filter truthy (flatMap result files).

(** The callback of [entries.map] in [resolve] (lines 97 to 107). Reading
    [single] of a collection that does not exist is a [TypeError]. *)
Definition aggregate_entry (config : Config) (entry : string * list VeliteFile)
  : Async (string * Value) :=
  let name := entry.1 in
  let data := collect entry.2 in
  match collection_of (collections config) name with
  | None => throw "TypeError: Cannot read properties of undefined (reading 'single')"
  | Some c =>
      if single c then
        if Nat.eqb (length data) 0 then
          throw ("no data resolved for '" ++ name ++ "'")
        else
          (if Nat.ltb 1 (length data)
           then warn (ExpectedSingle (length data) name)
           else log (ResolvedData 1 name)) >>
          ret (name, at_index data 0)
      else
        log (ResolvedData (length data) name) >>
        ret (name, VArr data)
  end.

(** [Object.fromEntries]: a later entry of the same key wins. *)
Definition fromEntries (es : list (string * Value)) : Aggregate :=
  foldl (fun m kv => <[kv.1 := kv.2]> m) ∅ es.

(** Lines 96 to 108 of [resolve]. *)
Definition aggregate (config : Config) (entries : list (string * list VeliteFile))
  : Async Aggregate :=
  await pairs := all (aggregate_entry config) entries in
  ret (fromEntries pairs).

(** Lines 110 to 116 of [resolve]: the [prepare] hook. *)
Definition run_prepare (config : Config) (result : Aggregate) : Async bool :=
  match prepare config with
  | Some hook =>
      emit (PrepareCall result) >>
      match hook result with
      | HookThrows err => throw err
      | HookReturns r =>
          let shouldOutput := default true r in
          log (ExecutedPrepare shouldOutput) >>
          ret shouldOutput
      end
  | None => ret true
  end.

(** Lines 128 to 133 of [resolve]: the [complete] hook. *)
Definition run_complete (config : Config) (result : Aggregate) : Async unit :=
  match complete config with
  | Some hook =>
      emit (CompleteCall result) >>
      match hook result with
      | HookThrows err => throw err
      | HookReturns _ => log ExecutedComplete
      end
  | None => ret tt
  end.

(** Lines 110 to 137 of [resolve]: hooks and output. *)
Definition emit_result (config : Config) (result : Aggregate) : Async Aggregate :=
  await shouldOutput := run_prepare config result in
  (if shouldOutput
   then emit (OutputData (data_dir (output config)) result)
   else warn PreventOutput) >>
  await current := read assets in
  emit (OutputAssets (assets_dir (output config)) current) >>
  run_complete config result >>
  log (ResolvedCollections (size result)) >>
  ret result.

(** Lines 66 to 86 of [resolve]: the opening line of the log, and the
    entries. *)
Definition gather (config : Config) (changed : option string)
  : Async (list (string * list VeliteFile)) :=
  log (ResolvingFrom (root config)) >>
  resolve_entries config changed.

(** Lines 66 to 94 of [resolve]: the files of every collection, once the
    report has let the pass go on. *)
Definition resolve_files (config : Config) (changed : option string)
  : Async (list (string * list VeliteFile)) :=
  await entries := gather config changed in
  check_report config entries >>
  ret entries.

(** [resolve(config, changed)] *)
Definition resolve (config : Config) (changed : option string) : Async Aggregate :=
  await entries := resolve_files config changed in
  await result := aggregate config entries in
  emit_result config result.

(** The kinds of event the watcher delivers. *)
Inductive FsEventKind : Type :=
| EvAdd
| EvAddDir
| EvChange
| EvUnlink
| EvUnlinkDir.

(** Lines 166 to 168 of [watch]: every entry of [config.cache] whose value
    is the changed file is deleted. *)
Definition invalidate (filename : string) : Async unit :=
  update (fun w => set_cache (filter (fun kv => kv.2 ≠ filename) (cache w)) w).

(** [watch(config)]: opens the watcher; its handler is [on_all] below. *)
Definition watch (config : Config) : Async unit :=
  info (WatchingChanges (root config)) >>
  let files := (concat (map (fun e => pattern e.2) (collections config))
                ++ configImports config)%list in
  emit (WatcherStart files (root config)) >>
  update (set_watcher (Some config)).

(** [build(options)]. The one-second timer that announces a slow build is
    left out. Modelled from the spec: the configuration [resolveConfig]
    returns starts with an empty cache (a restart discards the in-memory
    cache state). *)
Definition build (options : Options) : Async Aggregate :=
  (match opt_logLevel options with
   | Some lvl => emit (LoggerSet lvl)
   | None => ret tt
   end) >>
  let config := resolveConfig env (opt_config options) (opt_clean options)
                              (opt_strict options) in
  update (set_cache ∅) >>
  (if clean (output config) then
     emit (Rm (data_dir (output config))) >>
     log (CleanedData (data_dir (output config))) >>
     emit (Rm (assets_dir (output config))) >>
     log (CleanedAssets (assets_dir (output config)))
   else ret tt) >>
  emit (Mkdir (data_dir (output config))) >>
  emit (Mkdir (assets_dir (output config))) >>
  emit (OutputEntry (data_dir (output config)) (configPath config)) >>
  log Initialized >>
  await result := resolve config None in
  info BuildFinished >>
  (match opt_watch options with
   | Some true => watch config
   | _ => ret tt
   end) >>
  ret result.

(** The options of the restart: [{ config: config.configPath, clean: false,
    watch: true }]. *)
Definition restart_options (config : Config) : Options :=
  mkOptions (Some (configPath config)) (Some false) (Some true) None None.

(** The body of [try] in the handler (lines 165 to 179). It yields the
    options of the build it returns, when it returns one. *)
Definition on_change (config : Config) (filename : string) : Async (option Options) :=
  invalidate filename >>
  if existsb (String.eqb filename) (configImports config) then
    info ConfigChanged >>
    emit WatcherClose >>
    update (set_watcher None) >>
    emit (BuildCall (restart_options config)) >>
    ret (Some (restart_options config))
  else
    info (Changed filename) >>
    resolve config (Some filename) >>
    info RebuildFinished >>
    ret None.

(** The handler of the watcher, [on('all', async (event, filename) => ...)]
    (lines 158 to 183). The promise of the build that [try] returns is not
    awaited inside [try]: it settles the handler after [catch] is left. *)
Definition on_all (config : Config) (event : FsEventKind) (filename : option string)
  : Async unit :=
  match event with
  | EvAddDir | EvUnlinkDir => ret tt
  | _ =>
      match filename with
      | None => ret tt
      | Some name =>
          await returned :=
            try_catch (on_change config (join env (root config) name))
                      (fun err => warn (Caught err) >> ret None) in
          match returned with
          | Some options => build options >> ret tt
          | None => ret tt
          end
      end
  end.

(** One event of the watcher: the handler of the open watcher runs; a
    closed watcher delivers nothing. *)
Definition dispatch (ev : FsEventKind * option string) : Async unit :=
  fun w =>
    match watcher w with
    | Some config => on_all config ev.1 ev.2 w
    | None => (Fulfilled tt, w)
    end.

(** A sequence of events, one handler at a time. *)
Definition deliver (evs : list (FsEventKind * option string)) (w : World) : World :=
  foldl (fun w ev => (dispatch ev w).2) w evs.

End Program.

(* ===================================================================== *)
(** ** What a load computes *)
(* ===================================================================== *)

(** The context path of the record at an index (line 45). *)
Definition item_ctx (isArr : bool) (index : nat) : list PathSeg :=
  if isArr then [Idx index] else [].

(** What the callback of [load] yields for one record. *)
Definition item_outcome (sch : Schema) (meta : VeliteFile) (isArr : bool)
    (index : nat) (item : Value) : Value * list VMessage :=
  match parse_result (sch item (item_ctx isArr index) meta) with
  | ParseSuccess data => (data, [])
  | ParseFailure issues => (VUndefined, issue_messages issues)
  end.

(** ... and for the records from an index on. *)
Fixpoint outcomes (sch : Schema) (meta : VeliteFile) (isArr : bool)
    (index : nat) (items : list Value) : list (Value * list VMessage) :=
  match items with
  | [] => []
  | item :: rest =>
      item_outcome sch meta isArr index item :: outcomes sch meta isArr (S index) rest
  end.

(** The validations of the records from an index on, as events. *)
Fixpoint parse_events (p : string) (isArr : bool) (index : nat) (items : list Value)
  : list Event :=
  match items with
  | [] => []
  | _ :: rest => SafeParse p (item_ctx isArr index) :: parse_events p isArr (S index) rest
  end.

(** The file a load that does not short-circuit returns for a path. *)
Definition file_of (env : Env) (sch : Schema) (p : string) : VeliteFile :=
  let meta := mkFile p (readRecords env p) [] VUndefined in
  let isArr := isArray (records meta) in
  let outs := outcomes sch meta isArr 0 (record_list (records meta)) in
  mkFile p (records meta) (concat (map snd outs))
         (if isArr then VArr (map fst outs) else at_index (map fst outs) 0).

(** The events of such a load. *)
Definition load_events (env : Env) (p : string) : list Event :=
  FileCreate p :: parse_events p (isArray (readRecords env p)) 0
                               (record_list (readRecords env p)).

(** Globbing, creating a file and validating a record: the work a pass
    spares when it reuses what it has. *)
Definition is_work (e : Event) : bool :=
  match e with
  | GlobCall _ _ | FileCreate _ | SafeParse _ _ => true
  | _ => false
  end.

(** The events of the stages of a pass up to the report: logger lines and
    work. *)
Definition is_resolution (e : Event) : bool :=
  match e with
  | Logged _ _ | GlobCall _ _ | FileCreate _ | SafeParse _ _ => true
  | _ => false
  end.

(** A computation settles when it is fulfilled from every world. *)
Definition settles {A : Type} (c : Async A) : Prop :=
  ∀ w, ∃ a w', c w = (Fulfilled a, w').

(** A computation is oblivious when how it settles does not depend on the
    world it starts from. *)
Definition oblivious {A : Type} (c : Async A) : Prop :=
  ∀ w1 w2, (c w1).1 = (c w2).1.

(** A computation keeps a relation when the world it leaves is related to
    the world it starts from. *)
Definition keeps (R : World → World → Prop) {A : Type} (c : Async A) : Prop :=
  ∀ w, R w (c w).2.

(** The frame of a pass on the watcher: it leaves the watcher and
    [config.cache] as they are. *)
Definition same_watch (w w' : World) : Prop :=
  watcher w' = watcher w ∧ cache w' = cache w.

(** The trace only grows, by events of a kind. *)
Definition extends (kind : Event → bool) (w w' : World) : Prop :=
  ∃ evs, trace w' = (trace w ++ evs)%list ∧ Forall (fun e => kind e = true) evs.

(** The entry of a name in [resolved] is left as it is. *)
Definition same_entry (name : string) (w w' : World) : Prop :=
  resolved w' !! name = resolved w !! name.

(** Some file of the entries carries a diagnostic. *)
Definition has_messages (entries : list (string * list VeliteFile)) : Prop :=
  ∃ file, file ∈ concat (map snd entries) ∧ messages file ≠ [].

(** The contract of [reporter] with [quiet: true]: files without messages
    are not shown, so the report is empty exactly when no file has a
    message. *)
Definition quiet_reporter (env : Env) : Prop :=
  ∀ files, reporter env files = EmptyString ↔ Forall (fun f => messages f = []) files.

(** The entries of a pass. *)
Definition pass_entries (env : Env) (config : Config) (changed : option string)
    (w : World) : list (string * list VeliteFile) :=
  match (gather env config changed w).1 with
  | Fulfilled entries => entries
  | Rejected _ => []
  end.

(** The events of a pass. *)
Definition pass_events (env : Env) (config : Config) (changed : option string)
    (w : World) : list Event :=
  drop (length (trace w)) (trace (resolve env config changed w).2).

(** What the [prepare] hook decides for an aggregate, when it returns:
    no hook and no returned value mean that the output goes ahead. *)
Definition should_output (config : Config) (result : Aggregate) : option bool :=
  match prepare config with
  | Some hook =>
      match hook result with
      | HookReturns v => Some (default true v)
      | HookThrows _ => None
      end
  | None => Some true
  end.

(** The calls of the output-emission collaborator for data. *)
Definition is_output_data (e : Event) : bool :=
  match e with
  | OutputData _ _ => true
  | _ => false
  end.

(** The effect of diagnostics on a pass as the specification words it:
    with a diagnostic on some file, a strict pass fails before any data is
    emitted, and a pass that is not strict warns and emits the data. *)
Definition diagnostics_never_block_output (env : Env) (config : Config)
    (changed : option string) (w : World) : Prop :=
  has_messages (pass_entries env config changed w) →
  if strict config then
    (∃ err, (resolve env config changed w).1 = Rejected err)
    ∧ existsb is_output_data (pass_events env config changed w) = false
  else
    Logged LWarn (Issues (reporter env (concat (map snd (pass_entries env config changed w)))))
      ∈ pass_events env config changed w
    ∧ existsb is_output_data (pass_events env config changed w) = true.

(** The events of directories, which the handler ignores (line 159). *)
Definition is_dir_event (kind : FsEventKind) : bool :=
  match kind with
  | EvAddDir | EvUnlinkDir => true
  | _ => false
  end.

(** The changed file is the configuration file or one of its imports
    (line 170). *)
Definition is_config_change (config : Config) (filename : string) : bool :=
  existsb (String.eqb filename) (configImports config).

(** The world in which the rebuild of a changed file starts: the entries
    of the file are out of [config.cache], and the change is announced. *)
Definition rebuild_start (filename : string) (w : World) : World :=
  record [Logged LInfo (Changed filename)]
         (set_cache (filter (fun kv => kv.2 ≠ filename) (cache w)) w).

(** The world in which the restart after a change of the configuration
    starts: the entries of the file are out of [config.cache], the
    watcher is closed, and the build is called. *)
Definition restart_start (config : Config) (filename : string) (w : World) : World :=
  record [Logged LInfo ConfigChanged; WatcherClose; BuildCall (restart_options config)]
         (set_watcher None
            (set_cache (filter (fun kv => kv.2 ≠ filename) (cache w)) w)).

(** The handling of a change of the configuration as the specification
    words it: the watcher is closed and the build is restarted, and no
    cache is invalidated. *)
Definition restart_without_invalidation (env : Env) (config : Config)
    (filename : string) (w : World) : Prop :=
  (on_change env config filename w).1 = Fulfilled (Some (restart_options config))
  ∧ watcher (on_change env config filename w).2 = None
  ∧ cache (on_change env config filename w).2 = cache w.

(** The outputs of the records that validate, from an index on. *)
Fixpoint successes (sch : Schema) (meta : VeliteFile) (isArr : bool)
    (index : nat) (items : list Value) : list Value :=
  match items with
  | [] => []
  | item :: rest =>
      match parse_result (sch item (item_ctx isArr index) meta) with
      | ParseSuccess data => data :: successes sch meta isArr (S index) rest
      | ParseFailure _ => successes sch meta isArr (S index) rest
      end
  end.

(** What a pass holds under a name, when it is fulfilled. *)
Definition aggregate_at (env : Env) (config : Config) (changed : option string)
    (w : World) (name : string) : option Value :=
  match (resolve env config changed w).1 with
  | Fulfilled result => result !! name
  | Rejected _ => None
  end.

End Build.

(* ===================================================================== *)
(** ** The markdown schema transform *)
(* ===================================================================== *)

Module Markdown.
Local Open Scope list_scope.

(** The plugins the transform hands to the pipeline: the three it adds
    itself, and the ones of the configuration and of the options. *)
Inductive Plugin : Type :=
| RemarkGfm
| RemarkRemoveComments
| RehypeCopyLinkedFiles
| UserPlugin (name : string).

(** [MarkdownOptions]; an absent property is [None]. *)
Record MarkdownOptions : Type := mkMarkdownOptions {
  gfm : option bool;
  removeComments : option bool;
  copyLinkedFiles : option bool;
  remarkPlugins : option (list Plugin);
  rehypePlugins : option (list Plugin)
}.

(** What the transform reads of [ctx.meta]: [file.data.content],
    [file.path] and [config.markdown]. *)
Record Meta : Type := mkMeta {
  file_content : option string;
  file_path : string;
  config_markdown : option MarkdownOptions
}.

(** The issue [ctx.addIssue] is given. *)
Record Issue : Type := mkIssue {
  code : string;
  message : string
}.

(** What the transform can change: the issues of [ctx], and the plugin
    arrays of [config.markdown], which it pushes on. *)
Record Ctx : Type := mkCtx {
  issues : list Issue;
  meta : Meta
}.

Inductive Settled (A : Type) : Type :=
| Returns (a : A)
| Throws (err_message : string).
Arguments Returns {A} a.
Arguments Throws {A} err_message.

(** The unified pipeline, from [unified()] to [process({ value, path })]
    and [toString()], as a function of the two plugin lists, of the value
    and of the path. *)
Definition Pipeline : Type :=
  list Plugin → list Plugin → option string → string → Settled string.

(** A property of [{ ...markdown, ...options }]. *)
Definition spread {A : Type} (of_markdown of_options : option A) : option A :=
  match of_options with
  | Some a => Some a
  | None => of_markdown
  end.

(** The value the pipeline is given: the input, or the content of the file
    when the input is nullish and the file has one (lines 32 to 34). *)
Definition effective (value : option string) (m : Meta) : option string :=
  match value, file_content m with
  | None, Some content => Some content
  | _, _ => value
  end.

(** The remark plugins after the pushes of lines 39 to 41. *)
Definition remark_list (options : MarkdownOptions) (m : Meta) : list Plugin :=
  let markdown := default (mkMarkdownOptions None None None None None) (config_markdown m) in
  let l0 := default [] (remarkPlugins markdown) in
  let l1 := if default true (spread (gfm markdown) (gfm options))
            then l0 ++ [RemarkGfm] else l0 in
  let l2 := if default true (spread (removeComments markdown) (removeComments options))
            then l1 ++ [RemarkRemoveComments] else l1 in
  match remarkPlugins options with
  | Some ps => l2 ++ ps
  | None => l2
  end.

(** The rehype plugins after the pushes of lines 42 to 43. *)
Definition rehype_list (options : MarkdownOptions) (m : Meta) : list Plugin :=
  let markdown := default (mkMarkdownOptions None None None None None) (config_markdown m) in
  let l0 := default [] (rehypePlugins markdown) in
  let l1 := if default true (spread (copyLinkedFiles markdown) (copyLinkedFiles options))
            then l0 ++ [RehypeCopyLinkedFiles] else l0 in
  match rehypePlugins options with
  | Some ps => l1 ++ ps
  | None => l1
  end.

(** [config.markdown] after the pushes: an array the configuration holds
    is the array that was pushed on; a default [[]] is not stored. *)
Definition pushed (options : MarkdownOptions) (m : Meta) : Meta :=
  match config_markdown m with
  | None => m
  | Some markdown =>
      mkMeta (file_content m) (file_path m)
        (Some (mkMarkdownOptions (gfm markdown) (removeComments markdown)
                 (copyLinkedFiles markdown)
                 (match remarkPlugins markdown with
                  | Some _ => Some (remark_list options m)
                  | None => None
                  end)
                 (match rehypePlugins markdown with
                  | Some _ => Some (rehype_list options m)
                  | None => None
                  end)))
  end.

(** [markdown(options)], the function given to [transform]: it settles
    with the value of the field and the context it leaves. *)
Definition markdown (pipeline : Pipeline) (options : MarkdownOptions)
    (value : option string) (ctx : Ctx) : Settled (option string) * Ctx :=
  let m := meta ctx in
  let value := effective value m in
  let remarkPlugins := remark_list options m in
  let rehypePlugins := rehype_list options m in
  let ctx := mkCtx (issues ctx) (pushed options m) in
  match pipeline remarkPlugins rehypePlugins value (file_path m) with
  | Returns html => (Returns (Some html), ctx)
  | Throws err_message =>
      (Returns value,
       mkCtx (issues ctx ++ [mkIssue "custom" err_message]) (meta ctx))
  end.

(** A node of the syntax tree the plugins work on: a literal with its
    value, or a parent with its children. *)
Inductive Node : Type :=
| Literal (type : string) (value : string)
| Parent (type : string) (children : list Node).

(** The test of [visit(tree, ['html', 'jsx'], ...)]. *)
Definition is_target (type : string) : bool :=
  String.eqb type "html" || String.eqb type "jsx".

(** [value.match(/<!--([\s\S]*?)-->/g)] finds something: the value holds
    the opening of a comment and, after it, the closing. *)
Definition has_comment (value : string) : bool :=
  match String.index 0 "<!--" value with
  | Some start =>
      match String.index (start + 4) "-->" value with
      | Some _ => true
      | None => false
      end
  | None => false
  end.

(** The children of a parent after the visit of each of them, in order;
    [None] when a visit throws. *)
Definition visit_children (visit : Node → option (list Node))
  : list Node → option (list Node) :=
  fix go (children : list Node) : option (list Node) :=
    match children with
    | [] => Some []
    | child :: rest =>
        match visit child with
        | None => None
        | Some kept =>
            match go rest with
            | None => None
            | Some rest' => Some (kept ++ rest')
            end
        end
    end.

(** The visit of a node that has a parent: what it leaves at the place of
    the node among the children of the parent. The visitor is called on
    the html and jsx nodes; it splices the node out when its value holds a
    comment, and the visit goes on with the next sibling; reading the
    value of a node that has none throws. The children of the other
    parents are visited in order. *)
Fixpoint visit (node : Node) : option (list Node) :=
  match node with
  | Literal type value =>
      if is_target type && has_comment value then Some [] else Some [node]
  | Parent type children =>
      if is_target type then None
      else
        match visit_children visit children with
        | Some children' => Some [Parent type children']
        | None => None
        end
  end.

(** [remarkRemoveComments()(tree)]: the tree after the visit, or [None]
    when the visit throws. The root has no parent to be spliced out of. *)
Definition remarkRemoveComments (tree : Node) : option Node :=
  match tree with
  | Literal type value =>
      if is_target type && has_comment value then None else Some tree
  | Parent type children =>
      if is_target type then None
      else
        match visit_children visit children with
        | Some children' => Some (Parent type children')
        | None => None
        end
  end.

(** A tree in which every html or jsx node is a literal whose value holds
    no comment. *)
Fixpoint comment_free (node : Node) : bool :=
  match node with
  | Literal type value => negb (is_target type && has_comment value)
  | Parent type children => negb (is_target type) && forallb comment_free children
  end.

End Markdown.

(* ===================================================================== *)
(** ** A small content tree, used for the concrete instances *)
(* ===================================================================== *)

Module Demo.
Import Js Build.

(** A schema of numbers: [s.number()]. *)
Definition number_schema : Schema :=
  fun item ctx _ =>
    match item with
    | VNum z => mkParsed (ParseSuccess (VNum z)) []
    | _ => mkParsed (ParseFailure [mkIssue "Expected number" ctx]) []
    end.

Fixpoint field (name : string) (fields : list (string * Value)) : option Value :=
  match fields with
  | [] => None
  | (k, v) :: rest => if String.eqb k name then Some v else field name rest
  end.

(** A schema of objects with a string title: [s.object({ title: s.string() })]. *)
Definition titled_schema : Schema :=
  fun item ctx _ =>
    match item with
    | VObj fields =>
        match field "title" fields with
        | Some (VStr t) => mkParsed (ParseSuccess (VObj [("title", VStr t)])) []
        | Some _ => mkParsed (ParseFailure [mkIssue "Expected string" (ctx ++ [Key "title"])%list]) []
        | None => mkParsed (ParseFailure [mkIssue "Required" (ctx ++ [Key "title"])%list]) []
        end
    | _ => mkParsed (ParseFailure [mkIssue "Expected object" ctx]) []
    end.

(** The files of the content root, by the name below the root. *)
Definition tree : list (string * Value) :=
  [ ("numbers.json", VArr [VNum 0; VNum 5; VStr "five"]);
    ("posts.json", VArr [VObj [("title", VStr "a")]; VObj []; VObj [("title", VStr "b")]]);
    ("site.json", VObj []);
    ("about.json", VObj [("title", VStr "about")]) ].

Definition under (root name : string) : string := root ++ "/" ++ name.

(** Patterns without wildcards: a file matches the pattern that is its
    name, and a path contains the pattern that is a part of it. *)
Definition demo_glob (patterns : list string) (root : string) : list string :=
  map (fun e => under root e.1)
      (List.filter (fun e => existsb (String.eqb e.1) patterns) tree).

Definition demo_contains (str : string) (patterns : list string) : bool :=
  existsb (fun pat => match String.index 0 pat str with Some _ => true | None => false end)
          patterns.

Definition demo_read (p : string) : Value :=
  default VUndefined
    (snd <$> List.find (fun e => String.eqb (under "/site/content" e.1) p) tree).

(** One line per message; nothing for a file without messages. *)
Definition demo_reporter (files : list VeliteFile) : string :=
  String.concat EmptyString
    (map (fun m => "warning " ++ reason m ++ " " ++ source m ++ ";")
         (concat (map messages files))).

Definition demo_output : Output := mkOutput "/site/.velite" "/site/public/static" false.

Definition numbers : Collection := mkCollection ["numbers.json"] number_schema false.
Definition posts : Collection := mkCollection ["posts.json"] titled_schema false.
Definition site : Collection := mkCollection ["site.json"] titled_schema true.
Definition about : Collection := mkCollection ["about.json"] titled_schema true.

Definition config_of (cs : list (string * Collection)) (strict : bool)
    (prepare : option (Aggregate → HookResult (option bool))) : Config :=
  mkConfig "/site/content" "/site/velite.config.ts"
           ["/site/velite.config.ts"; "/site/content/site.json"]
           demo_output cs prepare None strict.

Definition demo_env : Env :=
  mkEnv (fun p => p) under demo_contains demo_glob demo_read demo_reporter
        (fun _ _ _ => config_of [("posts", posts); ("about", about)] false None).

Definition empty_world : World := mkWorld ∅ ∅ ∅ ∅ None [].

Definition posts_path : string := "/site/content/posts.json".
Definition about_path : string := "/site/content/about.json".
Definition site_path : string := "/site/content/site.json".

(** Configurations over the tree: a blog of posts with an about page, the
    same in strict mode, the about page alone, the about page with a hook
    that vetoes the output, the site data alone (a single collection
    whose one record is invalid), and the numbers. *)
Definition blog_config : Config :=
  config_of [("posts", posts); ("about", about)] false None.
Definition strict_blog_config : Config :=
  config_of [("posts", posts); ("about", about)] true None.
Definition veto_config : Config :=
  config_of [("about", about)] false (Some (fun _ => HookReturns (Some false))).
Definition site_config : Config := config_of [("site", site)] false None.
Definition numbers_config : Config := config_of [("numbers", numbers)] false None.

(** The world a full pass over the blog leaves. *)
Definition warm_world : World := (resolve demo_env blog_config None empty_world).2.

(** A world in which the site data, which the configuration imports, owns
    a key of [config.cache], and the watcher of the blog is open. *)
Definition slug_world : World :=
  mkWorld ∅ ∅ {[ "schemas:slug:global:home" := site_path ]} ∅ (Some blog_config) [].

(** A world in which the watcher of the site configuration is open. *)
Definition watching_site : World := mkWorld ∅ ∅ ∅ ∅ (Some site_config) [].

(** The about page alone, in strict mode. *)
Definition strict_about_config : Config := config_of [("about", about)] true None.

(** The posts alone. *)
Definition posts_config : Config := config_of [("posts", posts)] false None.

(** The about page with a [prepare] hook that throws, and with a
    [complete] hook that throws. *)
Definition throwing_prepare_config : Config :=
  config_of [("about", about)] false (Some (fun _ => HookThrows "prepare failed")).
Definition throwing_complete_config : Config :=
  mkConfig "/site/content" "/site/velite.config.ts"
           ["/site/velite.config.ts"; "/site/content/site.json"]
           demo_output [("about", about)] None
           (Some (fun _ => HookThrows "complete failed")) false.

(** The collaborators over the same tree, with a configuration file that
    now declares the site data alone: its build fails for want of data. *)
Definition broken_config_env : Env :=
  mkEnv (fun p => p) under demo_contains demo_glob demo_read demo_reporter
        (fun _ _ _ => site_config).

(** Pages: one collection over the posts and the about page. *)
Definition pages : Collection :=
  mkCollection ["posts.json"; "about.json"] titled_schema false.
Definition pages_config : Config := config_of [("pages", pages)] false None.

(** The world a full pass over the pages leaves. *)
Definition warm_pages : World := (resolve demo_env pages_config None empty_world).2.

(** A world in which the posts and the about page each own a key of
    [config.cache], and the watcher of the blog is open. *)
Definition keyed_world : World :=
  mkWorld ∅ ∅ {[ "schemas:slug:global:a" := posts_path;
                 "schemas:slug:global:about" := about_path ]} ∅ (Some blog_config) [].

(** A small document with two comments, one of them nested. *)
Definition commented_document : Markdown.Node :=
  Markdown.Parent "root"
    [ Markdown.Literal "html" "<!-- draft -->";
      Markdown.Parent "paragraph"
        [ Markdown.Literal "text" "Hello";
          Markdown.Literal "html" "<b>";
          Markdown.Literal "jsx" "<Note /> <!-- hidden
 note -->" ];
      Markdown.Literal "html" "<!-- unterminated" ].

(** A context whose configuration holds plugin arrays. *)
Definition configured_ctx : Markdown.Ctx :=
  Markdown.mkCtx []
    (Markdown.mkMeta None "/site/content/post.md"
       (Some (Markdown.mkMarkdownOptions None None None
                (Some [Markdown.UserPlugin "remark-math"]) (Some [])))).

(** A pipeline that throws on every input. *)
Definition failing_pipeline : Markdown.Pipeline :=
  fun _ _ _ _ => Markdown.Throws "Cannot process file".

End Demo.

Import Js Build.

(* ===================================================================== *)
(** ** The definitions on small inputs *)
(* ===================================================================== *)

Example truthy_values :
  map truthy [VUndefined; VNull; VBool false; VNum 0; VStr EmptyString;
              VNum 7; VStr "a"; VArr []; VObj []]
    = [false; false; false; false; false; true; true; true; true].
Proof. reflexivity. Qed.

Example flatMap_splices_one_level :
  flatMap (fun v => v) [VArr [VNum 1; VArr [VNum 2]]; VNum 3; VUndefined]
    = [VNum 1; VArr [VNum 2]; VNum 3; VUndefined].
Proof. reflexivity. Qed.

Example join_path_of_a_record_field : join_path [Idx 1; Key "title"] = "1.title".
Proof. reflexivity. Qed.

Example fromEntries_later_entry_wins :
  fromEntries [("a", VNum 1); ("a", VNum 2)] !! "a" = Some (VNum 2).
Proof. vm_compute. reflexivity. Qed.

(** A pass over the blog after a change of the posts: the posts are
    globbed and loaded again, the about page is taken from [resolved]. *)
Example incremental_pass_of_the_blog :
  List.filter (fun e => negb (is_output_data e))
    (pass_events Demo.demo_env Demo.blog_config (Some Demo.posts_path) Demo.warm_world)
    = [ Logged LLog (ResolvingFrom "/site/content");
        GlobCall ["posts.json"] "/site/content";
        FileCreate "/site/content/posts.json";
        SafeParse "/site/content/posts.json" [Idx 0];
        SafeParse "/site/content/posts.json" [Idx 1];
        SafeParse "/site/content/posts.json" [Idx 2];
        Logged LLog (ResolveFiles 1 ["posts.json"]);
        Logged LLog (SkippedResolve "about");
        Logged LWarn (Issues "warning Required 1.title;");
        Logged LLog (ResolvedData 2 "posts");
        Logged LLog (ResolvedData 1 "about");
        OutputAssets "/site/public/static" ∅;
        Logged LLog (ResolvedCollections 2) ]
  ∧ aggregate_at Demo.demo_env Demo.blog_config (Some Demo.posts_path) Demo.warm_world "posts"
      = Some (VArr [VObj [("title", VStr "a")]; VObj [("title", VStr "b")]]).
Proof. vm_compute. split; reflexivity. Qed.

(** The handler on a change of a file while the one record of the single
    collection is invalid: the rebuild fails, the error is a warning. *)
Example failed_rebuild_of_the_site :
  trace (on_all Demo.demo_env Demo.site_config EvChange (Some "posts.json")
           Demo.watching_site).2
    = [ Logged LInfo (Changed "/site/content/posts.json");
        Logged LLog (ResolvingFrom "/site/content");
        GlobCall ["site.json"] "/site/content";
        FileCreate "/site/content/site.json";
        SafeParse "/site/content/site.json" [];
        Logged LLog (ResolveFiles 1 ["site.json"]);
        Logged LWarn (Issues "warning Required title;");
        Logged LWarn (Caught "no data resolved for 'site'") ].
Proof. vm_compute. reflexivity. Qed.

(* ===================================================================== *)
(** ** Reasoning about computations *)
(* ===================================================================== *)

Lemma bind_fulfilled {A B : Type} (c : Async A) (k : A → Async B) w a w' :
  c w = (Fulfilled a, w') → bind c k w = k a w'.
Proof. intros H. unfold bind. now rewrite H. Qed.

Lemma bind_rejected {A B : Type} (c : Async A) (k : A → Async B) w err w' :
  c w = (Rejected err, w') → bind c k w = (Rejected err, w').
Proof. intros H. unfold bind. now rewrite H. Qed.

Lemma all_app {A B : Type} (f : A → Async B) (xs ys : list A) w :
  all f (xs ++ ys)%list w =
  match all f xs w with
  | (Fulfilled r1, w1) =>
      match all f ys w1 with
      | (Fulfilled r2, w2) => (Fulfilled (r1 ++ r2)%list, w2)
      | (Rejected err, w2) => (Rejected err, w2)
      end
  | (Rejected err, w1) => (Rejected err, w1)
  end.
Proof.
  revert w. induction xs as [|x xs IH]; intros w; simpl.
  - destruct (all f ys w) as [[r2|err] w2]; reflexivity.
  - unfold bind. destruct (f x w) as [[y|err] w1]; [|reflexivity].
    rewrite IH.
    destruct (all f xs w1) as [[r1|err] w2]; [|reflexivity].
    unfold ret. destruct (all f ys w2) as [[r2|err] w3]; reflexivity.
Qed.

Lemma all_length {A B : Type} (f : A → Async B) (xs : list A) w ys w' :
  all f xs w = (Fulfilled ys, w') → length ys = length xs.
Proof.
  revert w ys w'. induction xs as [|x xs IH]; intros w ys w'; simpl.
  - unfold ret. intros [= <- _]. reflexivity.
  - unfold bind. destruct (f x w) as [[y|err] w1]; [|discriminate].
    destruct (all f xs w1) as [[r|err] w2] eqn:E; [|discriminate].
    unfold ret. intros [= <- _]. simpl. f_equal. eapply IH, E.
Qed.

Lemma settles_ret {A : Type} (a : A) : settles (ret a).
Proof. intros w. now exists a, w. Qed.

Lemma settles_read {A : Type} (f : World → A) : settles (read f).
Proof. intros w. now exists (f w), w. Qed.

Lemma settles_update (f : World → World) : settles (update f).
Proof. intros w. now exists tt, (f w). Qed.

Lemma settles_bind {A B : Type} (c : Async A) (k : A → Async B) :
  settles c → (∀ a, settles (k a)) → settles (bind c k).
Proof.
  intros Hc Hk w. destruct (Hc w) as (a & w1 & E).
  rewrite (bind_fulfilled _ _ _ _ _ E). apply Hk.
Qed.

Lemma settles_all {A B : Type} (f : A → Async B) (xs : list A) :
  (∀ x, settles (f x)) → settles (all f xs).
Proof.
  intros Hf. induction xs as [|x xs IH]; simpl.
  - apply settles_ret.
  - apply settles_bind; [apply Hf|]. intros y.
    apply settles_bind; [apply IH|]. intros ys. apply settles_ret.
Qed.

Lemma settles_all_indexed {A B : Type} (f : nat → A → Async B) (xs : list A) :
  (∀ i x, settles (f i x)) → ∀ i, settles (all_indexed f i xs).
Proof.
  intros Hf. induction xs as [|x xs IH]; intros i; simpl.
  - apply settles_ret.
  - apply settles_bind; [apply Hf|]. intros y.
    apply settles_bind; [apply IH|]. intros ys. apply settles_ret.
Qed.

Lemma oblivious_ret {A : Type} (a : A) : oblivious (ret a).
Proof. now intros w1 w2. Qed.

Lemma oblivious_throw {A : Type} (err : string) : oblivious (@throw A err).
Proof. now intros w1 w2. Qed.

Lemma oblivious_update (f : World → World) : oblivious (update f).
Proof. now intros w1 w2. Qed.

Lemma oblivious_bind {A B : Type} (c : Async A) (k : A → Async B) :
  oblivious c → (∀ a, oblivious (k a)) → oblivious (bind c k).
Proof.
  intros Hc Hk w1 w2. unfold bind. specialize (Hc w1 w2).
  destruct (c w1) as [[a1|e1] w1'], (c w2) as [[a2|e2] w2']; simpl in Hc;
    try discriminate; injection Hc as ->; [apply Hk | reflexivity].
Qed.

(** A value read from the world and used by a continuation that does not
    depend on it. *)
Lemma oblivious_bind_read {A B : Type} (f : World → A) (k : A → Async B) :
  (∀ a1 a2 w1 w2, (k a1 w1).1 = (k a2 w2).1) → oblivious (bind (read f) k).
Proof. intros Hk w1 w2. unfold bind, read. apply Hk. Qed.

Lemma oblivious_all {A B : Type} (f : A → Async B) (xs : list A) :
  (∀ x, oblivious (f x)) → oblivious (all f xs).
Proof.
  intros Hf. induction xs as [|x xs IH]; simpl.
  - apply oblivious_ret.
  - apply oblivious_bind; [apply Hf|]. intros y.
    apply oblivious_bind; [apply IH|]. intros ys. apply oblivious_ret.
Qed.

Lemma oblivious_all_indexed {A B : Type} (f : nat → A → Async B) (xs : list A) :
  (∀ i x, oblivious (f i x)) → ∀ i, oblivious (all_indexed f i xs).
Proof.
  intros Hf. induction xs as [|x xs IH]; intros i; simpl.
  - apply oblivious_ret.
  - apply oblivious_bind; [apply Hf|]. intros y.
    apply oblivious_bind; [apply IH|]. intros ys. apply oblivious_ret.
Qed.

Lemma bind_inv {A B : Type} (c : Async A) (k : A → Async B) w b w' :
  bind c k w = (Fulfilled b, w') →
  ∃ a w1, c w = (Fulfilled a, w1) ∧ k a w1 = (Fulfilled b, w').
Proof.
  unfold bind. destruct (c w) as [[a|err] w1]; [|discriminate]. eauto.
Qed.

(** A callback that keeps the key of its argument: so does the fan-out. *)
Lemma all_keys {A B K : Type} (ka : A → K) (kb : B → K) (f : A → Async B) :
  (∀ x w y w', f x w = (Fulfilled y, w') → kb y = ka x) →
  ∀ xs w ys w', all f xs w = (Fulfilled ys, w') → map kb ys = map ka xs.
Proof.
  intros Hf. induction xs as [|x xs IH]; intros w ys w'; simpl.
  - unfold ret. now intros [= <- _].
  - intros H. apply bind_inv in H as (y & w1 & Hy & H).
    apply bind_inv in H as (r & w2 & Hr & H).
    unfold ret in H. injection H as <- _. simpl. f_equal; eauto.
Qed.



(** Frames: a relation between the world before and after that every step
    of a computation keeps. *)
Section Frame.

Variable R : World → World → Prop.
Hypothesis R_refl : ∀ w, R w w.
Hypothesis R_trans : ∀ w1 w2 w3, R w1 w2 → R w2 w3 → R w1 w3.

Lemma keeps_ret {A : Type} (a : A) : keeps R (ret a).
Proof. intros w. apply R_refl. Qed.

Lemma keeps_throw {A : Type} (err : string) : keeps R (@throw A err).
Proof. intros w. apply R_refl. Qed.

Lemma keeps_read {A : Type} (f : World → A) : keeps R (read f).
Proof. intros w. apply R_refl. Qed.

Lemma keeps_update (f : World → World) : (∀ w, R w (f w)) → keeps R (update f).
Proof. intros H w. apply H. Qed.

Lemma keeps_bind {A B : Type} (c : Async A) (k : A → Async B) :
  keeps R c → (∀ a, keeps R (k a)) → keeps R (bind c k).
Proof.
  intros Hc Hk w. unfold bind. specialize (Hc w).
  destruct (c w) as [[a|err] w1]; simpl in *; [|exact Hc].
  eapply R_trans; [exact Hc | apply Hk].
Qed.

Lemma keeps_all {A B : Type} (f : A → Async B) (xs : list A) :
  (∀ x, x ∈ xs → keeps R (f x)) → keeps R (all f xs).
Proof.
  induction xs as [|x xs IH]; intros Hf; simpl.
  - apply keeps_ret.
  - apply keeps_bind; [apply Hf; left|]. intros y.
    apply keeps_bind; [apply IH; intros z Hz; apply Hf; now right|].
    intros ys. apply keeps_ret.
Qed.

Lemma keeps_all_indexed {A B : Type} (f : nat → A → Async B) (xs : list A) :
  (∀ i x, keeps R (f i x)) → ∀ i, keeps R (all_indexed f i xs).
Proof.
  intros Hf. induction xs as [|x xs IH]; intros i; simpl.
  - apply keeps_ret.
  - apply keeps_bind; [apply Hf|]. intros y.
    apply keeps_bind; [apply IH|]. intros ys. apply keeps_ret.
Qed.

Lemma keeps_try_catch {A : Type} (body : Async A) (handler : string → Async A) :
  keeps R body → (∀ err, keeps R (handler err)) → keeps R (try_catch body handler).
Proof.
  intros Hb Hh w. unfold try_catch. specialize (Hb w).
  destruct (body w) as [[a|err] w1]; simpl in *; [exact Hb|].
  eapply R_trans; [exact Hb | apply Hh].
Qed.

End Frame.


(* ===================================================================== *)
(** ** The record parser *)
(* ===================================================================== *)

Section Loading.

Variable env : Env.

Lemma parse_items_run sch meta isArr items :
  ∀ index w, ∃ w',
    all_indexed (parse_item sch meta isArr) index items w
      = (Fulfilled (outcomes sch meta isArr index items), w')
    ∧ trace w' = (trace w ++ parse_events (path meta) isArr index items)%list
    ∧ resolved w' = resolved w ∧ loaded w' = loaded w
    ∧ cache w' = cache w ∧ watcher w' = watcher w.
Proof.
  induction items as [|item rest IH]; intros index w; simpl.
  - exists w. rewrite app_nil_r. repeat split; reflexivity.
  - unfold parse_item at 1, bind at 1, bind at 1, emit at 1, update at 1.
    cbn [fst snd].
    set (w1 := record [SafeParse (path meta) (if isArr then [Idx index] else [])] w).
    unfold bind at 1, update at 1.
    set (w2 := set_assets _ w1).
    assert (Hitem :
      (match parse_result (sch item (if isArr then [Idx index] else []) meta) with
       | ParseSuccess data => ret (data, [])
       | ParseFailure issues => ret (VUndefined, issue_messages issues)
       end) w2 = (Fulfilled (item_outcome sch meta isArr index item), w2)).
    { unfold item_outcome, item_ctx.
      destruct (parse_result _); reflexivity. }
    rewrite Hitem.
    destruct (IH (S index) w2) as (w' & E & Ht & Hr & Hl & Hc & Hw).
    exists w'. unfold bind. rewrite E. unfold ret.
    repeat split; try (etransitivity; [eassumption|reflexivity]).
    rewrite Ht. subst w2 w1. cbn. unfold item_ctx.
    now rewrite <- app_assoc.
Qed.

Lemma load_cached config p0 sch ch f w :
  normalize env p0 ≠ ch →
  loaded w !! normalize env p0 = Some f →
  load env config p0 sch (Some ch) w = (Fulfilled f, w).
Proof.
  intros Hne Hf. unfold load. cbv zeta.
  destruct (String.eqb_spec (normalize env p0) ch) as [E|_]; [contradiction|].
  cbn [negb]. unfold bind, VeliteFile_get, read. now rewrite Hf.
Qed.

Lemma load_fresh config p0 sch changed w :
  changed = None ∨ changed = Some (normalize env p0)
    ∨ loaded w !! normalize env p0 = None →
  let p := normalize env p0 in
  ∃ w',
    load env config p0 sch changed w = (Fulfilled (file_of env sch p), w')
    ∧ trace w' = (trace w ++ load_events env p)%list
    ∧ loaded w' = <[p := file_of env sch p]> (loaded w)
    ∧ resolved w' = resolved w ∧ cache w' = cache w ∧ watcher w' = watcher w.
Proof.
  intros Hcase p. unfold load. cbv zeta. fold p.
  assert (Hnone :
    (match changed with
     | Some ch => if negb (String.eqb p ch) then VeliteFile_get p else ret None
     | None => ret None
     end) w = (Fulfilled None, w)).
  { destruct changed as [ch|]; [|reflexivity].
    destruct Hcase as [H|[H|H]]; [discriminate| |].
    - injection H as ->. now rewrite String.eqb_refl.
    - destruct (negb (p =? ch)%string); [|reflexivity].
      unfold VeliteFile_get, read, p. now rewrite H. }
  rewrite (bind_fulfilled _ _ _ _ _ Hnone).
  unfold VeliteFile_create, bind at 1, bind at 1, emit at 1, update at 1.
  unfold bind at 1, update at 1, ret at 1.
  set (meta := mkFile p (readRecords env p) [] VUndefined).
  set (w1 := set_loaded _ _).
  destruct (parse_items_run sch meta (isArray (records meta))
              (record_list (records meta)) 0 w1) as (w2 & E & Ht & Hr & Hl & Hc & Hw).
  rewrite (bind_fulfilled _ _ _ _ _ E).
  unfold bind, update, ret. eexists. split; [reflexivity|].
  cbn. rewrite Ht, Hr, Hl, Hc, Hw. subst w1. cbn.
  repeat split.
  - unfold load_events. now rewrite <- app_assoc.
  - apply insert_insert_eq.
Qed.


End Loading.

(* ===================================================================== *)
(** ** Frames of the passes *)
(* ===================================================================== *)

Section ProgramFrame.

Variable env : Env.
Variable R : World → World → Prop.
Variable allowed : Event → bool.
Variable settable : string → Prop.
Hypothesis R_refl : ∀ w, R w w.
Hypothesis R_trans : ∀ w1 w2 w3, R w1 w2 → R w2 w3 → R w1 w3.
Hypothesis R_emit : ∀ e w, allowed e = true → R w (record [e] w).
Hypothesis R_loaded : ∀ m w, R w (set_loaded m w).
Hypothesis R_assets : ∀ m w, R w (set_assets m w).
Hypothesis R_resolved :
  ∀ name files w, settable name → R w (set_resolved (<[name := files]> (resolved w)) w).
Hypothesis allowed_resolution : ∀ e, is_resolution e = true → allowed e = true.

Local Ltac kbind := apply keeps_bind; [exact R_trans | | intros ?].
Local Ltac kret := first [apply keeps_ret | apply keeps_throw | apply keeps_read]; exact R_refl.

Lemma keeps_emit e : allowed e = true → keeps R (emit e).
Proof. intros H. apply keeps_update. intros w. now apply R_emit. Qed.

Lemma keeps_log lvl line : keeps R (emit (Logged lvl line)).
Proof. apply keeps_emit, allowed_resolution. reflexivity. Qed.

Lemma keeps_parse_item sch meta isArr index item :
  keeps R (parse_item sch meta isArr index item).
Proof.
  unfold parse_item. kbind.
  - apply keeps_emit, allowed_resolution. reflexivity.
  - kbind.
    + apply keeps_update. intros w. apply R_assets.
    + destruct (parse_result _); kret.
Qed.

Lemma keeps_load config p0 sch changed : keeps R (load env config p0 sch changed).
Proof.
  unfold load. cbv zeta. kbind.
  - destruct changed; [destruct (negb _)|]; unfold VeliteFile_get; kret.
  - destruct a as [file|]; [kret|].
    kbind.
    + unfold VeliteFile_create. kbind.
      * apply keeps_emit, allowed_resolution. reflexivity.
      * kbind; [|kret]. apply keeps_update. intros w. apply R_loaded.
    + kbind.
      * apply keeps_all_indexed; [exact R_refl | exact R_trans |].
        intros i x. apply keeps_parse_item.
      * kbind; [|kret]. apply keeps_update. intros w. apply R_loaded.
Qed.

Lemma keeps_rescan config changed name c :
  settable name → keeps R (rescan env config changed name c).
Proof.
  intros Hname. unfold rescan. kbind.
  - apply keeps_emit, allowed_resolution. reflexivity.
  - kbind.
    + apply keeps_all; [exact R_refl | exact R_trans |].
      intros x _. apply keeps_load.
    + kbind; [apply keeps_log|].
      kbind; [|kret]. apply keeps_update. intros w. now apply R_resolved.
Qed.

Lemma keeps_resolve_collection config changed entry :
  settable entry.1 → keeps R (resolve_collection env config changed entry).
Proof.
  intros Hname. unfold resolve_collection. cbv zeta. kbind; [kret|].
  destruct a; [|now apply keeps_rescan].
  kbind; [apply keeps_log|]. kbind; kret.
Qed.

Lemma keeps_resolve_entries config changed :
  (∀ entry, entry ∈ collections config → settable entry.1) →
  keeps R (resolve_entries env config changed).
Proof.
  intros Hall. unfold resolve_entries.
  apply keeps_all; [exact R_refl | exact R_trans |].
  intros entry Hin. apply keeps_resolve_collection. now apply Hall.
Qed.

Lemma keeps_gather config changed :
  (∀ entry, entry ∈ collections config → settable entry.1) →
  keeps R (gather env config changed).
Proof.
  intros Hall. unfold gather. kbind; [apply keeps_log|].
  now apply keeps_resolve_entries.
Qed.

Lemma keeps_check_report config entries : keeps R (check_report env config entries).
Proof.
  unfold check_report. cbv zeta. destruct (Nat.ltb _ _); [|kret].
  kbind; [apply keeps_log|]. destruct (strict config); kret.
Qed.

Lemma keeps_resolve_files config changed :
  (∀ entry, entry ∈ collections config → settable entry.1) →
  keeps R (resolve_files env config changed).
Proof.
  intros Hall. unfold resolve_files. kbind; [now apply keeps_gather|].
  kbind; [apply keeps_check_report | kret].
Qed.

Lemma keeps_aggregate config entries : keeps R (aggregate config entries).
Proof.
  unfold aggregate. kbind; [|kret].
  apply keeps_all; [exact R_refl | exact R_trans |]. intros entry _.
  unfold aggregate_entry. cbv zeta.
  destruct (collection_of _ _) as [c|]; [|kret].
  destruct (single c).
  - destruct (Nat.eqb _ _); [kret|]. kbind; [|kret].
    destruct (Nat.ltb _ _); apply keeps_log.
  - kbind; [apply keeps_log | kret].
Qed.

Hypothesis allowed_all : ∀ e, allowed e = true.

Lemma keeps_emit_result config result : keeps R (emit_result config result).
Proof.
  unfold emit_result. kbind.
  - unfold run_prepare. destruct (prepare config) as [hook|]; [|kret].
    kbind; [apply keeps_emit, allowed_all|].
    destruct (hook result); [|kret]. kbind; [apply keeps_log | kret].
  - kbind; [destruct a; apply keeps_emit, allowed_all|].
    kbind; [kret|]. kbind; [apply keeps_emit, allowed_all|].
    kbind.
    + unfold run_complete. destruct (complete config) as [hook|]; [|kret].
      kbind; [apply keeps_emit, allowed_all|].
      destruct (hook result); [apply keeps_log | kret].
    + kbind; [apply keeps_log | kret].
Qed.

Lemma keeps_resolve config changed :
  (∀ entry, entry ∈ collections config → settable entry.1) →
  keeps R (resolve env config changed).
Proof.
  intros Hall. unfold resolve. kbind; [now apply keeps_resolve_files|].
  kbind; [apply keeps_aggregate | apply keeps_emit_result].
Qed.

End ProgramFrame.

(* ===================================================================== *)
(** ** The collection resolver *)
(* ===================================================================== *)

Section Resolving.

Variable env : Env.

Lemma extends_refl kind w : extends kind w w.
Proof. exists []. split; [now rewrite app_nil_r | constructor]. Qed.

Lemma extends_trans kind w1 w2 w3 :
  extends kind w1 w2 → extends kind w2 w3 → extends kind w1 w3.
Proof.
  intros (e1 & H1 & F1) (e2 & H2 & F2). exists (e1 ++ e2)%list. split.
  - now rewrite H2, H1, app_assoc.
  - now apply Forall_app.
Qed.

Lemma gather_extends config changed w :
  extends is_resolution w (gather env config changed w).2.
Proof.
  apply (keeps_gather env (extends is_resolution) is_resolution (fun _ => True)).
  - apply extends_refl.
  - apply extends_trans.
  - intros e w0 He. exists [e]. split; [reflexivity | now constructor].
  - intros m w0. exists []. split; [cbn; now rewrite app_nil_r | constructor].
  - intros m w0. exists []. split; [cbn; now rewrite app_nil_r | constructor].
  - intros name files w0 _. exists []. split; [cbn; now rewrite app_nil_r | constructor].
  - auto.
  - auto.
Qed.

Lemma resolve_same_watch config changed w :
  same_watch w (resolve env config changed w).2.
Proof.
  apply (keeps_resolve env same_watch (fun _ => true) (fun _ => True));
    unfold same_watch; try (intros; split; reflexivity); auto.
  intros w1 w2 w3 [H1 H2] [H3 H4]. split; congruence.
Qed.

Lemma resolve_collection_same_entry config changed entry name w :
  entry.1 ≠ name →
  same_entry name w (resolve_collection env config changed entry w).2.
Proof.
  intros Hne.
  apply (keeps_resolve_collection env (same_entry name) (fun _ => true)
           (fun n => n ≠ name)); unfold same_entry; try (intros; reflexivity); auto.
  - intros w1 w2 w3 H1 H2. congruence.
  - intros n files w0 Hn. cbn. now rewrite lookup_insert_ne.
Qed.

Lemma settles_emit e : settles (emit e).
Proof. apply settles_update. Qed.

Lemma settles_load config p0 sch changed : settles (load env config p0 sch changed).
Proof.
  intros w.
  destruct changed as [ch|].
  - destruct (String.eqb_spec (normalize env p0) ch) as [E|Hne].
    + destruct (load_fresh env config p0 sch (Some ch) w) as (w' & H & _);
        [right; left; now rewrite E | eauto].
    + destruct (loaded w !! normalize env p0) as [f|] eqn:Hf.
      * exists f, w. now apply load_cached.
      * destruct (load_fresh env config p0 sch (Some ch) w) as (w' & H & _);
          [right; now right | eauto].
  - destruct (load_fresh env config p0 sch None w) as (w' & H & _);
      [now left | eauto].
Qed.

Lemma settles_rescan config changed name c :
  settles (rescan env config changed name c).
Proof.
  unfold rescan. apply settles_bind; [apply settles_emit|]. intros _.
  apply settles_bind; [apply settles_all; intros x; apply settles_load|].
  intros files. apply settles_bind; [apply settles_emit|]. intros _.
  apply settles_bind; [apply settles_update|]. intros _. apply settles_ret.
Qed.

Lemma settles_resolve_collection config changed entry :
  settles (resolve_collection env config changed entry).
Proof.
  unfold resolve_collection. cbv zeta.
  apply settles_bind; [apply settles_read|]. intros [|].
  - apply settles_bind; [apply settles_emit|]. intros _.
    apply settles_bind; [apply settles_read|]. intros files. apply settles_ret.
  - apply settles_rescan.
Qed.

Lemma settles_resolve_entries config changed :
  settles (resolve_entries env config changed).
Proof. apply settles_all. intros entry. apply settles_resolve_collection. Qed.

(** A collection that the changed path does not touch and that has an
    entry in [resolved]: its callback logs one line and yields the entry. *)
Lemma resolve_collection_skips config ch name c files w :
  contains env ch (pattern c) = false →
  resolved w !! name = Some files →
  resolve_collection env config (Some ch) (name, c) w
    = (Fulfilled (name, files), record [Logged LLog (SkippedResolve name)] w).
Proof.
  intros Hc Hr. unfold resolve_collection, bind, read, has. cbn.
  rewrite Hc. cbn. rewrite Hr. rewrite bool_decide_eq_true_2 by eauto.
  cbn. now rewrite Hr.
Qed.

(** C1. In a pass with a changed path, a collection whose patterns the
    path does not match and whose name has an entry in [resolved] gets
    exactly that entry: the collections before it run, its own callback
    only logs the skipped line (no glob, no file created, no record
    validated, no map changed), the collections after it run, and the
    entries of the pass hold the cached list at the place of the
    collection. *)
Theorem resolve_reuses_cached_collection config ch before name c after files w :
  collections config = (before ++ (name, c) :: after)%list →
  NoDup (map fst (collections config)) →
  contains env ch (pattern c) = false →
  resolved w !! name = Some files →
  ∃ r1 w1 r2 w2,
    all (resolve_collection env config (Some ch)) before w = (Fulfilled r1, w1)
    ∧ resolve_collection env config (Some ch) (name, c) w1
        = (Fulfilled (name, files), record [Logged LLog (SkippedResolve name)] w1)
    ∧ List.filter is_work (trace (record [Logged LLog (SkippedResolve name)] w1))
        = List.filter is_work (trace w1)
    ∧ all (resolve_collection env config (Some ch)) after
          (record [Logged LLog (SkippedResolve name)] w1) = (Fulfilled r2, w2)
    ∧ resolve_entries env config (Some ch) w
        = (Fulfilled (r1 ++ (name, files) :: r2)%list, w2)
    ∧ (r1 ++ (name, files) :: r2)%list !! length before = Some (name, files).
Proof.
  intros Hcs Hnd Hc Hr.
  assert (Hbefore : ∀ entry, entry ∈ before → entry.1 ≠ name).
  { intros entry Hin Heq. rewrite Hcs, map_app in Hnd. cbn in Hnd.
    apply NoDup_app in Hnd as (_ & Hdisj & _).
    apply (Hdisj name); [|left].
    rewrite <- Heq. apply list_elem_of_fmap. now exists entry. }
  destruct (settles_all (resolve_collection env config (Some ch)) before
              (settles_resolve_collection config (Some ch)) w) as (r1 & w1 & E1).
  assert (Hr1 : resolved w1 !! name = Some files).
  { rewrite <- Hr.
    pose proof (keeps_all (same_entry name)
                  (fun w0 => eq_refl) (fun a b c0 H1 H2 => eq_trans H2 H1)
                  (resolve_collection env config (Some ch)) before) as K.
    specialize (K (fun entry Hin w0 =>
                     resolve_collection_same_entry config (Some ch) entry name w0
                       (Hbefore entry Hin)) w).
    now rewrite E1 in K. }
  pose proof (resolve_collection_skips config ch name c files w1 Hc Hr1) as E2.
  destruct (settles_all (resolve_collection env config (Some ch)) after
              (settles_resolve_collection config (Some ch))
              (record [Logged LLog (SkippedResolve name)] w1)) as (r2 & w2 & E3).
  exists r1, w1, r2, w2. repeat split; try assumption.
  - cbn. rewrite List.filter_app. cbn. now rewrite app_nil_r.
  - unfold resolve_entries. rewrite Hcs, all_app, E1. cbn.
    unfold bind. rewrite E2, E3. reflexivity.
  - rewrite <- (all_length _ _ _ _ _ E1).
    now rewrite list_lookup_middle.
Qed.

Lemma oblivious_emit e : oblivious (emit e).
Proof. apply oblivious_update. Qed.

Lemma oblivious_load_full config p0 sch : oblivious (load env config p0 sch None).
Proof.
  intros w1 w2.
  destruct (load_fresh env config p0 sch None w1) as (w1' & E1 & _); [now left|].
  destruct (load_fresh env config p0 sch None w2) as (w2' & E2 & _); [now left|].
  now rewrite E1, E2.
Qed.

Lemma oblivious_rescan_full config name c : oblivious (rescan env config None name c).
Proof.
  unfold rescan. apply oblivious_bind; [apply oblivious_emit|]. intros _.
  apply oblivious_bind; [apply oblivious_all; intros x; apply oblivious_load_full|].
  intros files. apply oblivious_bind; [apply oblivious_emit|]. intros _.
  apply oblivious_bind; [apply oblivious_update|]. intros _. apply oblivious_ret.
Qed.

Lemma resolve_collection_full config entry w :
  resolve_collection env config None entry w
    = rescan env config None entry.1 entry.2 w.
Proof. reflexivity. Qed.

Lemma oblivious_resolve_entries_full config :
  oblivious (resolve_entries env config None).
Proof.
  unfold resolve_entries. apply oblivious_all. intros entry w1 w2.
  rewrite !resolve_collection_full. apply oblivious_rescan_full.
Qed.

Lemma oblivious_check_report config entries :
  oblivious (check_report env config entries).
Proof.
  unfold check_report. cbv zeta. destruct (Nat.ltb _ _); [|apply oblivious_ret].
  apply oblivious_bind; [apply oblivious_emit|]. intros _.
  destruct (strict config); [apply oblivious_throw | apply oblivious_ret].
Qed.

Lemma oblivious_aggregate config entries : oblivious (aggregate config entries).
Proof.
  unfold aggregate. apply oblivious_bind; [|intros pairs; apply oblivious_ret].
  apply oblivious_all. intros entry. unfold aggregate_entry. cbv zeta.
  destruct (collection_of _ _) as [c|]; [|apply oblivious_throw].
  destruct (single c).
  - destruct (Nat.eqb _ _); [apply oblivious_throw|].
    apply oblivious_bind; [|intros _; apply oblivious_ret].
    destruct (Nat.ltb _ _); apply oblivious_emit.
  - apply oblivious_bind; [apply oblivious_emit | intros _; apply oblivious_ret].
Qed.

Lemma oblivious_run_complete config result : oblivious (run_complete config result).
Proof.
  unfold run_complete. destruct (complete config) as [hook|]; [|apply oblivious_ret].
  apply oblivious_bind; [apply oblivious_emit|]. intros _.
  destruct (hook result); [apply oblivious_emit | apply oblivious_throw].
Qed.

Lemma oblivious_emit_result config result : oblivious (emit_result config result).
Proof.
  unfold emit_result. apply oblivious_bind.
  - unfold run_prepare. destruct (prepare config) as [hook|]; [|apply oblivious_ret].
    apply oblivious_bind; [apply oblivious_emit|]. intros _.
    destruct (hook result); [|apply oblivious_throw].
    apply oblivious_bind; [apply oblivious_emit | intros _; apply oblivious_ret].
  - intros shouldOutput.
    apply oblivious_bind; [destruct shouldOutput; apply oblivious_emit|]. intros _.
    apply oblivious_bind_read. intros a1 a2 w1 w2.
    assert (Hrest : oblivious (run_complete config result >>
                               log (ResolvedCollections (size result)) >> ret result)).
    { apply oblivious_bind; [apply oblivious_run_complete|]. intros _.
      apply oblivious_bind; [apply oblivious_emit | intros _; apply oblivious_ret]. }
    unfold bind at 1 3, emit, update. apply Hrest.
Qed.

Lemma oblivious_resolve_full config : oblivious (resolve env config None).
Proof.
  unfold resolve. apply oblivious_bind.
  - unfold resolve_files. apply oblivious_bind.
    + unfold gather. apply oblivious_bind; [apply oblivious_emit|]. intros _.
      apply oblivious_resolve_entries_full.
    + intros entries. apply oblivious_bind; [apply oblivious_check_report|].
      intros _. apply oblivious_ret.
  - intros entries. apply oblivious_bind; [apply oblivious_aggregate|].
    intros result. apply oblivious_emit_result.
Qed.


End Resolving.

(* ===================================================================== *)
(** ** The build orchestrator *)
(* ===================================================================== *)

Section Orchestrating.

Variable env : Env.

Lemma extends_any_emit_result config result w :
  extends (fun _ => true) w (emit_result config result w).2.
Proof.
  apply (keeps_emit_result (extends (fun _ => true)) (fun _ => true)); auto.
  - apply extends_refl.
  - apply extends_trans.
  - intros e w0 _. exists [e]. split; [reflexivity | now constructor].
Qed.

Lemma extends_any_aggregate config entries w :
  extends (fun _ => true) w (aggregate config entries w).2.
Proof.
  apply (keeps_aggregate (extends (fun _ => true)) (fun _ => true)); auto.
  - apply extends_refl.
  - apply extends_trans.
  - intros e w0 _. exists [e]. split; [reflexivity | now constructor].
Qed.


Lemma settles_gather config changed : settles (gather env config changed).
Proof.
  unfold gather. apply settles_bind; [apply settles_emit|]. intros _.
  apply settles_resolve_entries.
Qed.

Lemma resolution_not_output evs :
  Forall (fun e => is_resolution e = true) evs → existsb is_output_data evs = false.
Proof.
  induction 1 as [|e evs He _ IH]; [reflexivity|].
  cbn. rewrite IH. now destruct e.
Qed.

(** The hooks and the output of a pass, from the aggregate on: when the
    [prepare] hook returns, what it decides is whether the data is
    emitted, and the assets are copied either way. *)
Lemma emit_result_outputs config result so w :
  should_output config result = Some so →
  ∃ evs,
    trace (emit_result config result w).2 = (trace w ++ evs)%list
    ∧ existsb is_output_data evs = so
    ∧ (so = true → OutputData (data_dir (output config)) result ∈ evs)
    ∧ OutputAssets (assets_dir (output config)) (assets w) ∈ evs.
Proof.
  unfold should_output, emit_result, run_prepare, run_complete.
  destruct (prepare config) as [hook|].
  - destruct (hook result) as [v|err]; [|discriminate].
    intros [= <-].
    destruct (default true v);
      (destruct (complete config) as [hook'|]; [destruct (hook' result)|]);
      cbn; rewrite <- ?app_assoc; cbn;
      (eexists; split; [reflexivity|]); cbn;
      (split; [reflexivity|]); (split; [intros; try discriminate|]);
      rewrite ?list_elem_of_In; cbn; auto 10.
  - intros [= <-].
    (destruct (complete config) as [hook'|]; [destruct (hook' result)|]);
      cbn; rewrite <- ?app_assoc; cbn;
      (eexists; split; [reflexivity|]); cbn;
      (split; [reflexivity|]); (split; [intros _|]);
      rewrite ?list_elem_of_In; cbn; auto 10.
Qed.


Lemma collection_of_some cs name :
  name ∈ map fst cs → ∃ c, collection_of cs name = Some c.
Proof.
  induction cs as [|[n c] cs IH]; cbn; intros Hin.
  - now apply elem_of_nil in Hin.
  - destruct (String.eqb_spec n name) as [->|Hne]; [eauto|].
    apply elem_of_cons in Hin as [->|Hin]; [contradiction | auto].
Qed.

Lemma resolve_collection_name config changed entry w y w' :
  resolve_collection env config changed entry w = (Fulfilled y, w') → y.1 = entry.1.
Proof.
  unfold resolve_collection. cbv zeta. intros H.
  apply bind_inv in H as ([|] & w1 & _ & H).
  - apply bind_inv in H as (? & w2 & _ & H).
    apply bind_inv in H as (files & w3 & _ & H).
    unfold ret in H. now injection H as <- _.
  - unfold rescan in H.
    apply bind_inv in H as (? & w2 & _ & H).
    apply bind_inv in H as (files & w3 & _ & H).
    apply bind_inv in H as (? & w4 & _ & H).
    apply bind_inv in H as (? & w5 & _ & H).
    unfold ret in H. now injection H as <- _.
Qed.

Lemma resolve_files_names config changed w entries w1 :
  resolve_files env config changed w = (Fulfilled entries, w1) →
  map fst entries = map fst (collections config).
Proof.
  unfold resolve_files, gather, resolve_entries. intros H.
  apply bind_inv in H as (es & w2 & Hg & H).
  apply bind_inv in H as (? & w3 & _ & H).
  unfold ret in H. injection H as <- _.
  apply bind_inv in Hg as (? & w4 & _ & Hg).
  eapply all_keys; [|exact Hg].
  intros entry0 wa y0 wb. apply resolve_collection_name.
Qed.









Lemma reporter_not_empty entries :
  quiet_reporter env → has_messages entries →
  Nat.ltb 0 (String.length (reporter env (concat (map snd entries)))) = true.
Proof.
  intros Hq (file & Hin & Hm).
  destruct (reporter env (concat (map snd entries))) eqn:E; [|reflexivity].
  apply Hq in E. rewrite Forall_forall in E. now apply E in Hin.
Qed.

(** C3, as amended. With a diagnostic on some file of the pass: a strict
    pass warns and is rejected with the validation error, and none of its
    events is a data output; a pass that is not strict warns and goes on
    to the aggregation, and it emits the aggregate of the surviving
    records whenever the aggregation is fulfilled (no single collection
    is left without data) and the [prepare] hook lets the output go
    ahead. *)
Theorem diagnostics_abort_strict_pass_only config changed w :
  quiet_reporter env →
  has_messages (pass_entries env config changed w) →
  let entries := pass_entries env config changed w in
  let warning := Logged LWarn (Issues (reporter env (concat (map snd entries)))) in
  if strict config then
    (resolve env config changed w).1 = Rejected "Schema validation failed."
    ∧ warning ∈ pass_events env config changed w
    ∧ existsb is_output_data (pass_events env config changed w) = false
  else
    warning ∈ pass_events env config changed w
    ∧ resolve env config changed w
        = (await result := aggregate config entries in emit_result config result)
            (record [warning] (gather env config changed w).2)
    ∧ ∀ result,
        (aggregate config entries w).1 = Fulfilled result →
        should_output config result = Some true →
        OutputData (data_dir (output config)) result ∈ pass_events env config changed w.
Proof.
  intros Hq. unfold pass_entries, pass_events.
  destruct (settles_gather config changed w) as (entries & w1 & E).
  pose proof (gather_extends env config changed w) as (evs & Ht & Hres).
  rewrite E in *. cbn [fst snd] in *. intros Hm. cbv zeta.
  pose proof (reporter_not_empty entries Hq Hm) as Hlt.
  set (warning := Logged LWarn (Issues (reporter env (concat (map snd entries))))).
  assert (Hfiles : resolve_files env config changed w =
            if strict config
            then (Rejected "Schema validation failed.", record [warning] w1)
            else (Fulfilled entries, record [warning] w1)).
  { unfold resolve_files. rewrite (bind_fulfilled _ _ _ _ _ E).
    unfold check_report. cbv zeta. rewrite Hlt.
    unfold bind, warn, emit, update. cbn. destruct (strict config); reflexivity. }
  unfold resolve. destruct (strict config).
  - rewrite (bind_rejected _ _ _ _ _ Hfiles). cbn. rewrite Ht.
    rewrite <- app_assoc, drop_app_length. repeat split.
    + apply elem_of_app. right. left.
    + rewrite existsb_app, (resolution_not_output _ Hres). reflexivity.
  - rewrite (bind_fulfilled _ _ _ _ _ Hfiles).
    set (w2 := record [warning] w1).
    assert (Hgrow : extends (fun _ => true) w2
              ((await result := aggregate config entries in emit_result config result) w2).2).
    { apply (keeps_bind (extends (fun _ => true)) (extends_trans _)).
      - intros w0. apply extends_any_aggregate.
      - intros result w0. apply extends_any_emit_result. }
    destruct Hgrow as (evs2 & Ht2 & _). repeat split.
    + rewrite Ht2. subst w2. cbn. rewrite Ht.
      rewrite <- !app_assoc, drop_app_length.
      apply elem_of_app. right. left.
    + intros result Hagg Hso.
      pose proof (oblivious_aggregate config entries w w2) as Hob.
      rewrite Hagg in Hob.
      destruct (aggregate config entries w2) as [[result'|] w3] eqn:E3;
        cbn in Hob; [injection Hob as <-|discriminate].
      rewrite (bind_fulfilled _ _ _ _ _ E3).
      destruct (emit_result_outputs config result true w3 Hso)
        as (evs3 & Ht3 & _ & Hout & _).
      rewrite Ht3.
      pose proof (extends_any_aggregate config entries w2) as (evs4 & Ht4 & _).
      rewrite E3 in Ht4. cbn in Ht4. rewrite Ht4. subst w2. cbn. rewrite Ht.
      rewrite <- !app_assoc, drop_app_length.
      rewrite !elem_of_app. do 3 right. now apply Hout.
Qed.

(** C7. In a pass that reaches its [prepare] hook, and whose hook returns:
    the data is emitted exactly when the hook has returned nothing or a
    true value, and then it is the aggregate that is emitted; the assets
    are copied to the assets directory whether or not the data is. *)
Theorem prepare_hook_decides_data_output config changed w entries w1 result w2 hook v :
  resolve_files env config changed w = (Fulfilled entries, w1) →
  aggregate config entries w1 = (Fulfilled result, w2) →
  prepare config = Some hook →
  hook result = HookReturns v →
  ∃ evs,
    trace (resolve env config changed w).2 = (trace w2 ++ evs)%list
    ∧ existsb is_output_data evs = default true v
    ∧ (default true v = true → OutputData (data_dir (output config)) result ∈ evs)
    ∧ OutputAssets (assets_dir (output config)) (assets w2) ∈ evs.
Proof.
  intros Hfiles Hagg Hprep Hhook. unfold resolve.
  rewrite (bind_fulfilled _ _ _ _ _ Hfiles), (bind_fulfilled _ _ _ _ _ Hagg).
  apply emit_result_outputs. unfold should_output. now rewrite Hprep, Hhook.
Qed.


End Orchestrating.

(* ===================================================================== *)
(** ** The rebuild coordinator *)
(* ===================================================================== *)

Section Watching.

Variable env : Env.

Lemma on_change_rebuild config filename w :
  is_config_change config filename = false →
  on_change env config filename w =
  match resolve env config (Some filename) (rebuild_start filename w) with
  | (Fulfilled _, w') => (Fulfilled None, record [Logged LInfo RebuildFinished] w')
  | (Rejected err, w') => (Rejected err, w')
  end.
Proof.
  unfold is_config_change. intros Hc. unfold on_change. rewrite Hc.
  unfold bind at 1, invalidate, update. unfold bind at 1, info, emit, update.
  unfold bind at 1. fold (rebuild_start filename w).
  destruct (resolve env config (Some filename) (rebuild_start filename w))
    as [[result|err] w']; reflexivity.
Qed.

Lemma on_change_restart config filename w :
  is_config_change config filename = true →
  on_change env config filename w
    = (Fulfilled (Some (restart_options config)), restart_start config filename w).
Proof.
  unfold is_config_change. intros Hc. unfold on_change. rewrite Hc.
  unfold bind, invalidate, info, emit, update, ret, restart_start, record. cbn.
  now rewrite <- !app_assoc.
Qed.

(** The handler on a file that is not of the configuration: it is always
    fulfilled, and leaves the watcher open. *)
Lemma on_all_rebuild config kind name w :
  is_config_change config (join env (root config) name) = false →
  ∃ w', on_all env config kind (Some name) w = (Fulfilled tt, w')
        ∧ watcher w' = watcher w.
Proof.
  intros Hc.
  assert (Hbody : ∃ w',
    bind (try_catch (on_change env config (join env (root config) name))
                    (fun err => warn (Caught err) >> ret None))
         (fun returned => match returned with
                          | Some options => build env options >> ret tt
                          | None => ret tt
                          end) w = (Fulfilled tt, w')
    ∧ watcher w' = watcher w).
  { unfold bind at 1, try_catch. rewrite (on_change_rebuild _ _ _ Hc).
    pose proof (resolve_same_watch env config (Some (join env (root config) name))
                  (rebuild_start (join env (root config) name) w)) as [Hw _].
    destruct (resolve env config _ _) as [[result|err] w'']; cbn in Hw.
    - eexists. split; [reflexivity | exact Hw].
    - eexists. split; [reflexivity | exact Hw]. }
  destruct kind; cbn; try exact Hbody; exists w; split; reflexivity.
Qed.

(** C8. An event on a file that is not of the configuration never rejects
    the handler and leaves the watcher open; when the rebuild it triggers
    is rejected, the handler ends by logging the error as a warning, with
    nothing more done. So after any sequence of such events, whichever
    rebuilds failed, the watcher is still open with its configuration, and
    the next event is handled by the same handler. *)
Theorem rebuild_failure_is_caught_and_watching_goes_on config :
  (∀ kind name w,
     is_config_change config (join env (root config) name) = false →
     (∃ w', on_all env config kind (Some name) w = (Fulfilled tt, w')
            ∧ watcher w' = watcher w)
     ∧ (is_dir_event kind = false →
        ∀ err w',
          resolve env config (Some (join env (root config) name))
                  (rebuild_start (join env (root config) name) w) = (Rejected err, w') →
          on_all env config kind (Some name) w
            = (Fulfilled tt, record [Logged LWarn (Caught err)] w')))
  ∧ (∀ evs w,
       watcher w = Some config →
       (∀ ev name, ev ∈ evs → ev.2 = Some name →
                   is_config_change config (join env (root config) name) = false) →
       watcher (deliver env evs w) = Some config
       ∧ ∀ ev, dispatch env ev (deliver env evs w)
               = on_all env config ev.1 ev.2 (deliver env evs w)).
Proof.
  split.
  - intros kind name w Hc. split; [now apply on_all_rebuild|].
    intros Hk err w' Hres.
    assert (Hbody :
      bind (try_catch (on_change env config (join env (root config) name))
                      (fun err => warn (Caught err) >> ret None))
           (fun returned => match returned with
                            | Some options => build env options >> ret tt
                            | None => ret tt
                            end) w
      = (Fulfilled tt, record [Logged LWarn (Caught err)] w')).
    { unfold bind at 1, try_catch. rewrite (on_change_rebuild _ _ _ Hc), Hres.
      reflexivity. }
    destruct kind; try discriminate; exact Hbody.
  - assert (Hloop : ∀ evs w,
       watcher w = Some config →
       (∀ ev name, ev ∈ evs → ev.2 = Some name →
                   is_config_change config (join env (root config) name) = false) →
       watcher (deliver env evs w) = Some config).
    { induction evs as [|[kind file] evs IH]; intros w Hw Hevs; [exact Hw|].
      cbn. apply IH.
      - unfold dispatch. rewrite Hw. cbn.
        destruct file as [name|].
        + destruct (on_all_rebuild config kind name w) as (w' & E & Hw').
          { apply (Hevs (kind, Some name)); [left | reflexivity]. }
          rewrite E. cbn. congruence.
        + destruct kind; exact Hw.
      - intros ev name Hin. apply Hevs. now right. }
    intros evs w Hw Hevs. split; [now apply Hloop|].
    intros ev. unfold dispatch at 1. now rewrite (Hloop evs w Hw Hevs).
Qed.

Lemma oblivious_watch config : oblivious (watch config).
Proof.
  unfold watch. apply oblivious_bind; [apply oblivious_emit|]. intros _.
  apply oblivious_bind; [apply oblivious_emit|]. intros _. apply oblivious_update.
Qed.

(** A build settles the same way from every world: it is a full pass. *)
Lemma oblivious_build options : oblivious (build env options).
Proof.
  unfold build.
  apply oblivious_bind.
  { destruct (opt_logLevel options); [apply oblivious_emit | apply oblivious_ret]. }
  intros _. cbv zeta.
  apply oblivious_bind; [apply oblivious_update|]. intros _.
  apply oblivious_bind.
  { destruct (clean _); [|apply oblivious_ret].
    repeat (apply oblivious_bind; [apply oblivious_emit|]; intros _).
    apply oblivious_emit. }
  intros _.
  repeat (apply oblivious_bind; [apply oblivious_emit|]; intros _).
  apply oblivious_bind; [apply oblivious_resolve_full|]. intros result.
  apply oblivious_bind; [apply oblivious_emit|]. intros _.
  apply oblivious_bind; [|intros _; apply oblivious_ret].
  destruct (opt_watch options) as [[|]|];
    [apply oblivious_watch | apply oblivious_ret | apply oblivious_ret].
Qed.

(** C9, as amended. On an event for the configuration file or one of its
    imports, the handler first deletes the entries of [config.cache] that
    the file owns, as for every event; it then announces the change,
    closes the watcher and returns the build of the configuration path
    with [clean: false] and [watch: true]. Nothing else happens before the
    build: no rebuild scoped to the changed path is run. The build is a
    full one: how it settles does not depend on the state of the
    process. *)
Theorem config_change_restarts_build config kind name w :
  is_dir_event kind = false →
  is_config_change config (join env (root config) name) = true →
  let filename := join env (root config) name in
  let w1 := restart_start config filename w in
  on_change env config filename w = (Fulfilled (Some (restart_options config)), w1)
  ∧ cache w1 = filter (fun kv => kv.2 ≠ filename) (cache w)
  ∧ watcher w1 = None
  ∧ trace w1 = (trace w ++ [Logged LInfo ConfigChanged; WatcherClose;
                            BuildCall (restart_options config)])%list
  ∧ restart_options config
      = mkOptions (Some (configPath config)) (Some false) (Some true) None None
  ∧ on_all env config kind (Some name) w
      = (build env (restart_options config) >> ret tt) w1
  ∧ oblivious (build env (restart_options config)).
Proof.
  intros Hk Hc filename w1.
  pose proof (on_change_restart config filename w Hc) as E.
  repeat split; try exact E; try apply oblivious_build.
  assert (Hbody :
    bind (try_catch (on_change env config filename)
                    (fun err => warn (Caught err) >> ret None))
         (fun returned => match returned with
                          | Some options => build env options >> ret tt
                          | None => ret tt
                          end) w
    = (build env (restart_options config) >> ret tt) w1).
  { unfold bind at 1, try_catch. now rewrite E. }
  destruct kind; try discriminate; exact Hbody.
Qed.

End Watching.

(* ===================================================================== *)
(** ** Files with several records *)
(* ===================================================================== *)

Section Records.

Variable env : Env.

Lemma collect_outcomes sch meta isArr items :
  ∀ index,
    List.filter truthy (map fst (outcomes sch meta isArr index items))
      = List.filter truthy (successes sch meta isArr index items).
Proof.
  induction items as [|item rest IH]; intros index; cbn; [reflexivity|].
  unfold item_outcome. destruct (parse_result _); cbn; now rewrite IH.
Qed.

Lemma messages_outcomes sch meta isArr items :
  ∀ index,
    concat (map snd (outcomes sch meta isArr index items))
      = concat (imap (fun i item =>
                        match parse_result (sch item (item_ctx isArr (index + i)) meta) with
                        | ParseSuccess _ => []
                        | ParseFailure issues => issue_messages issues
                        end) items).
Proof.
  induction items as [|item rest IH]; intros index; cbn; [reflexivity|].
  rewrite Nat.add_0_r. unfold item_outcome at 1. f_equal.
  - now destruct (parse_result _).
  - rewrite IH. f_equal. apply imap_ext. intros i x _. cbn.
    now rewrite Nat.add_succ_r.
Qed.

(** The file of an array of records: every issue of every failing record
    is a message whose source is the joined path of the issue, and the
    file contributes to its collection the outputs of the records that
    validate, in order, less the falsy ones. *)
Lemma array_file_contribution sch p items :
  readRecords env p = VArr items →
  let meta := mkFile p (VArr items) [] VUndefined in
  messages (file_of env sch p)
    = concat (imap (fun i item =>
                      match parse_result (sch item [Idx i] meta) with
                      | ParseSuccess _ => []
                      | ParseFailure issues =>
                          map (fun issue => mkMessage (issue_message issue)
                                              (join_path (issue_path issue))) issues
                      end) items)
  ∧ collect [file_of env sch p] = List.filter truthy (successes sch meta true 0 items).
Proof.
  intros Hr meta. unfold file_of, collect, flatMap, record_list. cbn.
  rewrite Hr. cbn. fold meta. split.
  - apply messages_outcomes.
  - rewrite app_nil_r. apply collect_outcomes.
Qed.

(** When every output is truthy, the contribution is exactly the outputs
    of the records that validate. *)
Lemma array_file_truthy_contribution sch p items :
  readRecords env p = VArr items →
  let meta := mkFile p (VArr items) [] VUndefined in
  forallb truthy (successes sch meta true 0 items) = true →
  collect [file_of env sch p] = successes sch meta true 0 items.
Proof.
  intros Hr meta Ht.
  destruct (array_file_contribution sch p items Hr) as [_ ->]. fold meta.
  induction (successes sch meta true 0 items) as [|v vs IH]; [reflexivity|].
  cbn in *. apply andb_prop in Ht as [Hv Hvs]. rewrite Hv. f_equal. now apply IH.
Qed.

End Records.

(** C2, at the input where the code departs from it. The file
    [numbers.json] holds the array of [0], [5] and the string [five], in a
    collection of numbers: the first two records validate and the third
    fails with one issue, which becomes the one message of the file, its
    source being the index [2]. The result of the file keeps the place of
    the failed record as [undefined]; the aggregate of the collection is
    the array of [5] alone, because the filter of line 98 drops the valid
    output [0] together with [undefined]. *)
Theorem falsy_valid_output_is_dropped :
  let config := Demo.config_of [("numbers", Demo.numbers)] false None in
  let file := file_of Demo.demo_env Demo.number_schema "/site/content/numbers.json" in
  records file = VArr [VNum 0; VNum 5; VStr "five"]
  ∧ successes Demo.number_schema (mkFile (path file) (records file) [] VUndefined)
              true 0 [VNum 0; VNum 5; VStr "five"] = [VNum 0; VNum 5]
  ∧ messages file = [mkMessage "Expected number" "2"]
  ∧ result file = VArr [VNum 0; VNum 5; VUndefined]
  ∧ pass_entries Demo.demo_env config None Demo.empty_world = [("numbers", [file])]
  ∧ aggregate_at Demo.demo_env config None Demo.empty_world "numbers"
      = Some (VArr [VNum 5]).
Proof. vm_compute. repeat split; reflexivity. Qed.

(* ===================================================================== *)
(** ** The markdown transform *)
(* ===================================================================== *)

(** C10. When the pipeline throws, the transform does not throw: it
    returns the value it gave to the pipeline, which is the input of the
    field whenever there is one (and the content of the file for a
    nullish input of a file that has content), and the only change to the
    issues is one more issue, with the code [custom] and the message of
    the error. *)
Theorem markdown_failure_becomes_issue
    (pipeline : Markdown.Pipeline) (options : Markdown.MarkdownOptions)
    (value : option string) (ctx : Markdown.Ctx) (err : string) :
  pipeline (Markdown.remark_list options (Markdown.meta ctx))
           (Markdown.rehype_list options (Markdown.meta ctx))
           (Markdown.effective value (Markdown.meta ctx))
           (Markdown.file_path (Markdown.meta ctx)) = Markdown.Throws err →
  (Markdown.markdown pipeline options value ctx).1
    = Markdown.Returns (Markdown.effective value (Markdown.meta ctx))
  ∧ (∀ input, value = Some input →
       (Markdown.markdown pipeline options value ctx).1 = Markdown.Returns (Some input))
  ∧ Markdown.issues (Markdown.markdown pipeline options value ctx).2
      = (Markdown.issues ctx ++ [Markdown.mkIssue "custom" err])%list.
Proof.
  intros Hthrow. unfold Markdown.markdown. cbv zeta. rewrite Hthrow. cbn.
  repeat split. intros input ->. reflexivity.
Qed.

(* ===================================================================== *)
(** ** Concrete instances *)
(* ===================================================================== *)

Lemma demo_reporter_quiet : quiet_reporter Demo.demo_env.
Proof.
  intros files. cbn. unfold Demo.demo_reporter.
  assert (Hflat : concat (map messages files) = [] ↔ Forall (fun f => messages f = []) files).
  { induction files as [|f files IH]; cbn.
    - split; [constructor | reflexivity].
    - split.
      + intros H. apply app_eq_nil in H as [H1 H2]. constructor; [assumption | now apply IH].
      + intros H. apply Forall_cons in H as [H1 H2]. rewrite H1. now apply IH. }
  rewrite <- Hflat.
  destruct (concat (map messages files)) as [|m ms]; cbn.
  - split; reflexivity.
  - split; [|discriminate]. destruct (map _ ms); discriminate.
Qed.

Lemma resolve_reuses_cached_collection_witness :
  ∃ r1 w1 r2 w2,
    all (resolve_collection Demo.demo_env Demo.blog_config (Some Demo.posts_path))
        [("posts", Demo.posts)] Demo.warm_world = (Fulfilled r1, w1)
    ∧ resolve_collection Demo.demo_env Demo.blog_config (Some Demo.posts_path)
        ("about", Demo.about) w1
        = (Fulfilled ("about", [file_of Demo.demo_env Demo.titled_schema Demo.about_path]),
           record [Logged LLog (SkippedResolve "about")] w1)
    ∧ List.filter is_work (trace (record [Logged LLog (SkippedResolve "about")] w1))
        = List.filter is_work (trace w1)
    ∧ all (resolve_collection Demo.demo_env Demo.blog_config (Some Demo.posts_path)) []
          (record [Logged LLog (SkippedResolve "about")] w1) = (Fulfilled r2, w2)
    ∧ resolve_entries Demo.demo_env Demo.blog_config (Some Demo.posts_path) Demo.warm_world
        = (Fulfilled
             (r1 ++ ("about", [file_of Demo.demo_env Demo.titled_schema Demo.about_path])
                 :: r2)%list, w2)
    ∧ (r1 ++ ("about", [file_of Demo.demo_env Demo.titled_schema Demo.about_path])
          :: r2)%list !! 1 = Some ("about", [file_of Demo.demo_env Demo.titled_schema Demo.about_path]).
Proof.
  apply (resolve_reuses_cached_collection Demo.demo_env Demo.blog_config Demo.posts_path
           [("posts", Demo.posts)] "about" Demo.about []
           [file_of Demo.demo_env Demo.titled_schema Demo.about_path] Demo.warm_world).
  - reflexivity.
  - apply (bool_decide_unpack _). vm_compute. exact I.
  - vm_compute. reflexivity.
  - vm_compute. reflexivity.
Defined.


Lemma diagnostics_abort_strict_pass_only_witness :
  has_messages (pass_entries Demo.demo_env Demo.strict_blog_config None Demo.empty_world)
  ∧ (resolve Demo.demo_env Demo.strict_blog_config None Demo.empty_world).1
      = Rejected "Schema validation failed."
  ∧ existsb is_output_data
      (pass_events Demo.demo_env Demo.strict_blog_config None Demo.empty_world) = false.
Proof.
  assert (Hm : has_messages
                 (pass_entries Demo.demo_env Demo.strict_blog_config None Demo.empty_world)).
  { exists (file_of Demo.demo_env Demo.titled_schema Demo.posts_path). split.
    - apply list_elem_of_In. vm_compute. left. reflexivity.
    - vm_compute. discriminate. }
  split; [exact Hm|].
  pose proof (diagnostics_abort_strict_pass_only Demo.demo_env Demo.strict_blog_config
                None Demo.empty_world demo_reporter_quiet Hm) as H.
  cbv zeta in H. change (strict Demo.strict_blog_config) with true in H.
  destruct H as (H1 & _ & H3). split; assumption.
Defined.

(** C3, as the specification words it, fails on a pass that is not
    strict: the one record of the site data is invalid, so the pass warns
    about the diagnostic and is then rejected for want of data of the
    single collection, and no data is emitted. *)
Lemma diagnostics_block_output_of_empty_single :
  ¬ diagnostics_never_block_output Demo.demo_env Demo.site_config None Demo.empty_world.
Proof.
  unfold diagnostics_never_block_output. intros H.
  assert (Hm : has_messages
                 (pass_entries Demo.demo_env Demo.site_config None Demo.empty_world)).
  { exists (file_of Demo.demo_env Demo.titled_schema Demo.site_path). split.
    - apply list_elem_of_In. vm_compute. left. reflexivity.
    - vm_compute. discriminate. }
  specialize (H Hm). change (strict Demo.site_config) with false in H.
  destruct H as [_ H]. vm_compute in H. discriminate.
Qed.


Lemma prepare_hook_decides_data_output_witness :
  ∃ evs,
    trace (resolve Demo.demo_env Demo.veto_config None Demo.empty_world).2
      = (trace (aggregate Demo.veto_config
                  [("about", [file_of Demo.demo_env Demo.titled_schema Demo.about_path])]
                  (resolve_files Demo.demo_env Demo.veto_config None Demo.empty_world).2).2
         ++ evs)%list
    ∧ existsb is_output_data evs = false
    ∧ (false = true →
       OutputData "/site/.velite" {[ "about" := VObj [("title", VStr "about")] ]} ∈ evs)
    ∧ OutputAssets "/site/public/static" ∅ ∈ evs.
Proof.
  apply (prepare_hook_decides_data_output Demo.demo_env Demo.veto_config None
           Demo.empty_world
           [("about", [file_of Demo.demo_env Demo.titled_schema Demo.about_path])]
           (resolve_files Demo.demo_env Demo.veto_config None Demo.empty_world).2
           {[ "about" := VObj [("title", VStr "about")] ]}
           (aggregate Demo.veto_config
              [("about", [file_of Demo.demo_env Demo.titled_schema Demo.about_path])]
              (resolve_files Demo.demo_env Demo.veto_config None Demo.empty_world).2).2
           (fun _ => HookReturns (Some false)) (Some false)).
  - vm_compute. reflexivity.
  - vm_compute. reflexivity.
  - reflexivity.
  - reflexivity.
Defined.

Lemma rebuild_failure_is_caught_and_watching_goes_on_witness :
  on_all Demo.demo_env Demo.site_config EvChange (Some "posts.json") Demo.watching_site
    = (Fulfilled tt,
       record [Logged LWarn (Caught "no data resolved for 'site'")]
         (resolve Demo.demo_env Demo.site_config (Some Demo.posts_path)
            (rebuild_start Demo.posts_path Demo.watching_site)).2)
  ∧ watcher (deliver Demo.demo_env
               [(EvChange, Some "posts.json"); (EvUnlink, Some "about.json")]
               Demo.watching_site) = Some Demo.site_config.
Proof.
  destruct (rebuild_failure_is_caught_and_watching_goes_on Demo.demo_env Demo.site_config)
    as [Hone Hloop].
  split.
  - destruct (Hone EvChange "posts.json" Demo.watching_site eq_refl) as [_ Hcaught].
    apply Hcaught; [reflexivity|]. vm_compute. reflexivity.
  - apply Hloop; [reflexivity|].
    intros ev name Hin Hname.
    apply list_elem_of_In in Hin. cbn in Hin.
    destruct Hin as [<-|[<-|[]]]; cbn in Hname; injection Hname as <-; reflexivity.
Defined.

Lemma config_change_restarts_build_witness :
  on_change Demo.demo_env Demo.blog_config Demo.site_path Demo.slug_world
    = (Fulfilled (Some (restart_options Demo.blog_config)),
       restart_start Demo.blog_config Demo.site_path Demo.slug_world)
  ∧ cache (restart_start Demo.blog_config Demo.site_path Demo.slug_world) = ∅
  ∧ watcher (restart_start Demo.blog_config Demo.site_path Demo.slug_world) = None
  ∧ on_all Demo.demo_env Demo.blog_config EvChange (Some "site.json") Demo.slug_world
      = (build Demo.demo_env (restart_options Demo.blog_config) >> ret tt)
          (restart_start Demo.blog_config Demo.site_path Demo.slug_world).
Proof.
  destruct (config_change_restarts_build Demo.demo_env Demo.blog_config EvChange
              "site.json" Demo.slug_world eq_refl eq_refl) as (H1 & H2 & H3 & _ & _ & H6 & _).
  split; [exact H1|]. split; [|split; [exact H3 | exact H6]].
  etransitivity; [exact H2|]. vm_compute. reflexivity.
Defined.

(** C9, as the specification words it, fails where the changed file of the
    configuration owns an entry of [config.cache]: the handler deletes the
    entry before it restarts the build. *)
Lemma config_change_invalidates_cache_first :
  ¬ restart_without_invalidation Demo.demo_env Demo.blog_config Demo.site_path
      Demo.slug_world.
Proof.
  intros (_ & _ & Hcache).
  apply (f_equal (fun m => m !! "schemas:slug:global:home")) in Hcache.
  vm_compute in Hcache. discriminate.
Qed.

Lemma markdown_failure_becomes_issue_witness :
  (Markdown.markdown Demo.failing_pipeline
     (Markdown.mkMarkdownOptions None None None None None) (Some "# Title")
     (Markdown.mkCtx [] (Markdown.mkMeta None "/site/content/post.md" None))).1
    = Markdown.Returns (Some "# Title")
  ∧ Markdown.issues
      (Markdown.markdown Demo.failing_pipeline
         (Markdown.mkMarkdownOptions None None None None None) (Some "# Title")
         (Markdown.mkCtx [] (Markdown.mkMeta None "/site/content/post.md" None))).2
    = [Markdown.mkIssue "custom" "Cannot process file"].
Proof.
  destruct (markdown_failure_becomes_issue Demo.failing_pipeline
              (Markdown.mkMarkdownOptions None None None None None) (Some "# Title")
              (Markdown.mkCtx [] (Markdown.mkMeta None "/site/content/post.md" None))
              "Cannot process file" eq_refl) as (H1 & _ & H3).
  split; assumption.
Defined.

(* ===================================================================== *)
(** ** More on the aggregation *)
(* ===================================================================== *)

Section Aggregating.

Variable env : Env.

Lemma settles_all_in {A B : Type} (f : A → Async B) (xs : list A) :
  (∀ x, x ∈ xs → settles (f x)) → settles (all f xs).
Proof.
  induction xs as [|x xs IH]; intros Hf; simpl.
  - apply settles_ret.
  - apply settles_bind; [apply Hf; left|]. intros y.
    apply settles_bind; [apply IH; intros z Hz; apply Hf; now right|].
    intros ys. apply settles_ret.
Qed.

Lemma collection_of_elem cs name c :
  collection_of cs name = Some c → (name, c) ∈ cs.
Proof.
  induction cs as [|[n c0] cs IH]; cbn; [discriminate|].
  destruct (String.eqb_spec n name) as [->|_].
  - intros [= ->]. left.
  - intros H. right. now apply IH.
Qed.

Lemma aggregate_entry_list config name files c w :
  collection_of (collections config) name = Some c → single c = false →
  aggregate_entry config (name, files) w
    = (Fulfilled (name, VArr (collect files)),
       record [Logged LLog (ResolvedData (length (collect files)) name)] w).
Proof.
  intros Hc Hs. unfold aggregate_entry. cbv zeta. cbn [fst snd].
  now rewrite Hc, Hs.
Qed.



(** X2. When no collection of the configuration is single, the
    aggregation of a pass is always fulfilled: neither an empty collection
    nor an invalid record can make it throw. *)
Theorem aggregation_without_single_never_throws config changed w entries w1 :
  (∀ entry, entry ∈ collections config → single entry.2 = false) →
  resolve_files env config changed w = (Fulfilled entries, w1) →
  ∃ result w2, aggregate config entries w1 = (Fulfilled result, w2).
Proof.
  intros Hlist Hfiles.
  pose proof (resolve_files_names env config changed w entries w1 Hfiles) as Hnames.
  assert (Hall : settles (all (aggregate_entry config) entries)).
  { apply settles_all_in. intros [name files] Hin w0.
    destruct (collection_of_some (collections config) name) as [c Hc].
    { rewrite <- Hnames. apply list_elem_of_fmap. now exists (name, files). }
    pose proof (Hlist _ (collection_of_elem _ _ _ Hc)) as Hs. cbn in Hs.
    eexists _, _. now apply (aggregate_entry_list config name files c). }
  destruct (Hall w1) as (pairs & w2 & E).
  exists (fromEntries pairs), w2. unfold aggregate.
  now rewrite (bind_fulfilled _ _ _ _ _ E).
Qed.



End Aggregating.

(* ===================================================================== *)
(** ** More on the collection resolver *)
(* ===================================================================== *)

Section Caching.

Variable env : Env.

Lemma record_record evs1 evs2 w :
  record evs2 (record evs1 w) = record (evs1 ++ evs2) w.
Proof. unfold record. cbn. now rewrite app_assoc. Qed.

Lemma record_nil w : record [] w = w.
Proof. destruct w. unfold record. cbn. now rewrite app_nil_r. Qed.

(** The callback of a collection leaves under the name of the collection
    the list it yields, whether it has reused it or scanned it. *)
Lemma resolve_collection_stores config changed entry w y w' :
  resolve_collection env config changed entry w = (Fulfilled y, w') →
  y.1 = entry.1 ∧ resolved w' !! entry.1 = Some y.2.
Proof.
  unfold resolve_collection. cbv zeta. intros H.
  apply bind_inv in H as (skip & w1 & Hskip & H).
  unfold read in Hskip. injection Hskip as <- <-.
  destruct (match changed with
            | Some ch => negb (contains env ch (pattern entry.2)) && has (resolved w) entry.1
            | None => false
            end) eqn:Hskip.
  - assert (Hhas : has (resolved w) entry.1 = true).
    { destruct changed; [|discriminate]. now apply andb_prop in Hskip as [_ ?]. }
    unfold has in Hhas. apply bool_decide_eq_true_1 in Hhas as [files Hfiles].
    unfold bind, log, emit, update, read, ret in H. cbn in H.
    rewrite Hfiles in H. cbn in H. injection H as <- <-. cbn. now split.
  - unfold rescan in H.
    apply bind_inv in H as (? & w2 & _ & H).
    apply bind_inv in H as (files & w3 & _ & H).
    apply bind_inv in H as (? & w4 & _ & H).
    apply bind_inv in H as (? & w5 & Hset & H).
    unfold ret in H. injection H as <- <-.
    unfold update in Hset. injection Hset as _ <-. cbn.
    split; [reflexivity | apply lookup_insert_eq].
Qed.

Lemma resolve_entries_stores config changed :
  ∀ cs w es w',
    NoDup (map fst cs) →
    all (resolve_collection env config changed) cs w = (Fulfilled es, w') →
    ∀ name files, (name, files) ∈ es → resolved w' !! name = Some files.
Proof.
  induction cs as [|entry cs IH]; intros w es w' Hnd H name files Hin; simpl in H.
  - unfold ret in H. injection H as <- _. now apply elem_of_nil in Hin.
  - apply bind_inv in H as (y & w1 & Hy & H).
    apply bind_inv in H as (ys & w2 & Hys & H).
    unfold ret in H. injection H as <- <-.
    cbn in Hnd. apply NoDup_cons in Hnd as [Hfresh Hnd].
    apply elem_of_cons in Hin as [Heq|Hin]; [subst y|now apply (IH w1 ys w2)].
    destruct (resolve_collection_stores _ _ _ _ _ _ Hy) as [Hname Hstored].
    cbn in Hname, Hstored. rewrite Hname. rewrite <- Hstored.
    pose proof (keeps_all (same_entry entry.1)
                  (fun w0 => eq_refl) (fun a b c0 H1 H2 => eq_trans H2 H1)
                  (resolve_collection env config changed) cs) as K.
    specialize (K (fun e He w0 =>
                     resolve_collection_same_entry env config changed e entry.1 w0
                       (fun Heq => Hfresh ltac:(rewrite <- Heq; apply list_elem_of_fmap;
                                                 now exists e))) w1).
    now rewrite Hys in K.
Qed.

(** The stages of a pass after the entries leave [resolved] alone. *)
Lemma resolve_after_gather config changed w entries w1 :
  gather env config changed w = (Fulfilled entries, w1) →
  resolved (resolve env config changed w).2 = resolved w1.
Proof.
  intros Hg.
  assert (Hfiles : resolve_files env config changed w
                   = (check_report env config entries >> ret entries) w1).
  { unfold resolve_files. now rewrite (bind_fulfilled _ _ _ _ _ Hg). }
  unfold resolve. unfold bind at 1. rewrite Hfiles.
  set (rest := bind (check_report env config entries >> ret entries)
                    (fun entries0 => await result := aggregate config entries0 in
                                     emit_result config result)).
  change (resolved (rest w1).2 = resolved w1).
  assert (K : keeps (fun a b => resolved b = resolved a) rest).
  { assert (Hrefl : ∀ a : World, resolved a = resolved a) by reflexivity.
    assert (Htrans : ∀ a b c0 : World, resolved b = resolved a → resolved c0 = resolved b →
                                        resolved c0 = resolved a) by (intros; congruence).
    apply keeps_bind; [exact Htrans| |intros entries0].
    - apply keeps_bind; [exact Htrans| |intros _; now apply keeps_ret].
      apply (keeps_check_report env _ (fun _ => true)); auto.
    - apply keeps_bind; [exact Htrans| |intros result].
      + apply (keeps_aggregate _ (fun _ => true)); auto.
      + apply (keeps_emit_result _ (fun _ => true)); auto. }
  apply K.
Qed.

(** X4. Whatever way a pass ends, fulfilled or rejected by the report, by
    an empty single collection or by a hook, the map [resolved] then holds
    under the name of every collection exactly the list of files the pass
    has resolved for it. *)
Theorem resolved_holds_entries_of_pass config changed w :
  NoDup (map fst (collections config)) →
  map fst (pass_entries env config changed w) = map fst (collections config)
  ∧ ∀ name files,
      (name, files) ∈ pass_entries env config changed w →
      resolved (resolve env config changed w).2 !! name = Some files.
Proof.
  intros Hnd. unfold pass_entries.
  destruct (settles_gather env config changed w) as (entries & w1 & Hg).
  rewrite (resolve_after_gather config changed w entries w1 Hg). rewrite Hg. cbn.
  unfold gather in Hg. apply bind_inv in Hg as (? & w0 & _ & Hg).
  unfold resolve_entries in Hg. split.
  - eapply all_keys; [|exact Hg].
    intros entry0 wa y0 wb. apply resolve_collection_name.
  - now apply (resolve_entries_stores config changed (collections config) w0 entries w1).
Qed.

Lemma resolve_entries_all_skipped config ch :
  ∀ cs w,
    (∀ entry, entry ∈ cs →
       contains env ch (pattern entry.2) = false ∧ is_Some (resolved w !! entry.1)) →
    all (resolve_collection env config (Some ch)) cs w
      = (Fulfilled (map (fun entry => (entry.1, default [] (resolved w !! entry.1))) cs),
         record (map (fun entry => Logged LLog (SkippedResolve entry.1)) cs) w).
Proof.
  induction cs as [|[name c] cs IH]; intros w Hall; simpl.
  - now rewrite record_nil.
  - destruct (Hall (name, c)) as [Hc [files Hfiles]]; [left|]. cbn in Hc, Hfiles.
    rewrite (bind_fulfilled _ _ _ _ _
               (resolve_collection_skips env config ch name c files w Hc Hfiles)).
    rewrite (bind_fulfilled _ _ _ _ _
               (IH (record [Logged LLog (SkippedResolve name)] w)
                   (fun entry Hin => Hall entry ltac:(now right)))).
    unfold ret. cbn. rewrite Hfiles. cbn. now rewrite record_record.
Qed.

(** X5. A pass for a changed path that no collection's patterns contain,
    when every collection has an entry in [resolved], resolves nothing:
    its entries are the cached lists, in the order of the collections, and
    all it does is log one skipped line per collection. No glob runs, no
    file is created, no record is validated, and no map changes. *)
Theorem unrelated_change_resolves_nothing config ch w :
  (∀ entry, entry ∈ collections config →
     contains env ch (pattern entry.2) = false ∧ is_Some (resolved w !! entry.1)) →
  resolve_entries env config (Some ch) w
    = (Fulfilled (map (fun entry => (entry.1, default [] (resolved w !! entry.1)))
                      (collections config)),
       record (map (fun entry => Logged LLog (SkippedResolve entry.1))
                   (collections config)) w)
  ∧ List.filter is_work (trace (resolve_entries env config (Some ch) w).2)
      = List.filter is_work (trace w).
Proof.
  intros Hall. unfold resolve_entries.
  rewrite (resolve_entries_all_skipped config ch (collections config) w Hall).
  split; [reflexivity|]. cbn. rewrite List.filter_app.
  induction (collections config) as [|entry cs IH]; cbn; [now rewrite app_nil_r|].
  apply IH. intros e He. apply Hall. now right.
Qed.

Lemma loads_incremental config sch ch (cached : string → VeliteFile) :
  ∀ paths w,
    (∀ p, p ∈ paths → normalize env p ≠ ch →
          loaded w !! normalize env p = Some (cached p)) →
    ∃ w',
      all (fun p => load env config p sch (Some ch)) paths w
        = (Fulfilled (map (fun p => if String.eqb (normalize env p) ch
                                    then file_of env sch ch else cached p) paths), w')
      ∧ trace w' = (trace w ++ concat (map (fun p => if String.eqb (normalize env p) ch
                                                     then load_events env ch else [])
                                           paths))%list
      ∧ (∀ q, q ≠ ch → loaded w' !! q = loaded w !! q)
      ∧ resolved w' = resolved w.
Proof.
  induction paths as [|p paths IH]; intros w Hc; simpl.
  - exists w. rewrite app_nil_r. repeat split; reflexivity.
  - destruct (String.eqb_spec (normalize env p) ch) as [Heq|Hne].
    + destruct (load_fresh env config p sch (Some ch) w) as (w1 & E & Ht & Hl & Hr & _).
      { right. left. now rewrite Heq. }
      rewrite Heq in E, Ht, Hl.
      destruct (IH w1) as (w' & E' & Ht' & Hl' & Hr').
      { intros p' Hin Hne'. rewrite Hl, lookup_insert_ne by congruence.
        apply Hc; [now right | assumption]. }
      exists w'. rewrite (bind_fulfilled _ _ _ _ _ E), (bind_fulfilled _ _ _ _ _ E').
      repeat split.
      * rewrite Ht', Ht. now rewrite <- app_assoc.
      * intros q Hq. rewrite Hl' by assumption. rewrite Hl.
        apply lookup_insert_ne. congruence.
      * congruence.
    + pose proof (load_cached env config p sch ch (cached p) w Hne
                    (Hc p ltac:(left) Hne)) as E.
      destruct (IH w) as (w' & E' & Ht' & Hl' & Hr').
      { intros p' Hin. apply Hc. now right. }
      exists w'. rewrite (bind_fulfilled _ _ _ _ _ E), (bind_fulfilled _ _ _ _ _ E').
      repeat split; assumption.
Qed.

(** X6. When a collection is scanned again for a changed path and every
    other match of its patterns has a cached file, only the changed path
    is created and validated again; the other files of the list are the
    cached ones, in the order of the glob, and the list is stored under
    the name of the collection. *)
Theorem rescan_reloads_only_changed_file config ch name c
    (cached : string → VeliteFile) w :
  (∀ p, p ∈ glob env (pattern c) (root config) → normalize env p ≠ ch →
        loaded w !! normalize env p = Some (cached p)) →
  let paths := glob env (pattern c) (root config) in
  let files := map (fun p => if String.eqb (normalize env p) ch
                             then file_of env (schema c) ch else cached p) paths in
  ∃ w',
    rescan env config (Some ch) name c w = (Fulfilled (name, files), w')
    ∧ trace w' =
        (trace w ++ GlobCall (pattern c) (root config)
           :: concat (map (fun p => if String.eqb (normalize env p) ch
                                    then load_events env ch else []) paths)
           ++ [Logged LLog (ResolveFiles (length paths) (pattern c))])%list
    ∧ resolved w' = <[name := files]> (resolved w).
Proof.
  intros Hc paths files. unfold rescan.
  unfold bind at 1, emit at 1, update at 1. cbv zeta.
  destruct (loads_incremental config (schema c) ch cached paths
              (record [GlobCall (pattern c) (root config)] w)) as (w1 & E & Ht & _ & Hr).
  { intros p Hin Hne. cbn. now apply Hc. }
  fold paths. rewrite (bind_fulfilled _ _ _ _ _ E).
  unfold bind, log, emit, update, ret. eexists. split; [reflexivity|]. cbn.
  rewrite Ht, Hr. cbn. split; [|reflexivity].
  now rewrite <- !app_assoc.
Qed.

(** X7. A pass none of whose files carries a message goes through the
    report untouched, strict or not: no warning is logged and nothing is
    thrown. *)
Theorem pass_without_diagnostics_is_not_gated config changed w :
  quiet_reporter env →
  ¬ has_messages (pass_entries env config changed w) →
  resolve_files env config changed w = gather env config changed w.
Proof.
  intros Hq Hno. unfold pass_entries in Hno. unfold resolve_files.
  destruct (settles_gather env config changed w) as (entries & w1 & Hg).
  rewrite Hg in Hno |- *. cbn in Hno. rewrite (bind_fulfilled _ _ _ _ _ Hg).
  assert (Hempty : reporter env (concat (map snd entries)) = EmptyString).
  { apply Hq. apply Forall_forall. intros file Hin.
    destruct (messages file) eqn:E; [reflexivity|].
    exfalso. apply Hno. exists file. split; [assumption | now rewrite E]. }
  unfold check_report. cbv zeta. rewrite Hempty. reflexivity.
Qed.

End Caching.

(* ===================================================================== *)
(** ** More on hooks, files and the watcher *)
(* ===================================================================== *)

Section Hooks.

Variable env : Env.

(** X8. When the [prepare] hook throws, the pass is rejected with the
    error of the hook right after the call: no data is emitted, no asset
    is copied and the [complete] hook is not called. *)
Theorem prepare_failure_prevents_output config changed w entries w1 result w2 hook err :
  resolve_files env config changed w = (Fulfilled entries, w1) →
  aggregate config entries w1 = (Fulfilled result, w2) →
  prepare config = Some hook →
  hook result = HookThrows err →
  resolve env config changed w = (Rejected err, record [PrepareCall result] w2).
Proof.
  intros Hfiles Hagg Hprep Hhook. unfold resolve.
  rewrite (bind_fulfilled _ _ _ _ _ Hfiles), (bind_fulfilled _ _ _ _ _ Hagg).
  unfold emit_result, run_prepare. rewrite Hprep, Hhook. reflexivity.
Qed.

(** X9. When the [complete] hook throws, the pass is rejected with the
    error of the hook, but only after the output: the assets have been
    copied, and the data emitted unless the [prepare] hook had vetoed it;
    the call of the hook is the last event of the pass. *)
Theorem complete_failure_comes_after_output
    config changed w entries w1 result w2 so hook err :
  resolve_files env config changed w = (Fulfilled entries, w1) →
  aggregate config entries w1 = (Fulfilled result, w2) →
  should_output config result = Some so →
  complete config = Some hook →
  hook result = HookThrows err →
  ∃ w' evs,
    resolve env config changed w = (Rejected err, w')
    ∧ trace w' = (trace w2 ++ evs)%list
    ∧ existsb is_output_data evs = so
    ∧ (so = true → OutputData (data_dir (output config)) result ∈ evs)
    ∧ OutputAssets (assets_dir (output config)) (assets w2) ∈ evs
    ∧ last evs = Some (CompleteCall result).
Proof.
  intros Hfiles Hagg Hso Hcomp Hhook. unfold resolve.
  rewrite (bind_fulfilled _ _ _ _ _ Hfiles), (bind_fulfilled _ _ _ _ _ Hagg).
  unfold should_output in Hso.
  unfold emit_result, run_prepare, run_complete. rewrite Hcomp, Hhook.
  destruct (prepare config) as [hook'|].
  - destruct (hook' result) as [v|]; [|discriminate]. injection Hso as <-.
    destruct (default true v); cbn;
      (eexists _, _; split; [reflexivity|]); cbn; rewrite <- ?app_assoc; cbn;
      (split; [reflexivity|]); (split; [reflexivity|]);
      (split; [intros; try discriminate|]);
      rewrite ?list_elem_of_In; cbn; auto 10.
  - injection Hso as <-. cbn.
    eexists _, _. split; [reflexivity|]. cbn. rewrite <- ?app_assoc. cbn.
    split; [reflexivity|]. split; [reflexivity|]. split; [intros _|];
      rewrite ?list_elem_of_In; cbn; auto 10.
Qed.

Lemma outcomes_length sch meta isArr items :
  ∀ index, length (outcomes sch meta isArr index items) = length items.
Proof. induction items as [|item rest IH]; intros index; cbn; [|rewrite IH]; reflexivity. Qed.

Lemma outcomes_lookup sch meta isArr items :
  ∀ index i item, items !! i = Some item →
    outcomes sch meta isArr index items !! i
      = Some (item_outcome sch meta isArr (index + i) item).
Proof.
  induction items as [|item0 rest IH]; intros index i item Hi; [discriminate|].
  destruct i as [|i]; cbn in *.
  - injection Hi as ->. now rewrite Nat.add_0_r.
  - rewrite Nat.add_succ_r. exact (IH (S index) i item Hi).
Qed.

Lemma outcomes_no_messages sch meta isArr items :
  ∀ index,
    (∀ i item, items !! i = Some item →
       ∃ data, parse_result (sch item (item_ctx isArr (index + i)) meta)
               = ParseSuccess data) →
    concat (map snd (outcomes sch meta isArr index items)) = [].
Proof.
  induction items as [|item0 rest IH]; intros index Hall; [reflexivity|].
  cbn [outcomes map concat].
  destruct (Hall 0 item0 eq_refl) as [data Hdata]. rewrite Nat.add_0_r in Hdata.
  unfold item_outcome at 1. rewrite Hdata. cbn [snd app].
  apply IH. intros i item Hi.
  destruct (Hall (S i) item Hi) as [d Hd]. rewrite Nat.add_succ_r in Hd. eauto.
Qed.

(** X10. The result of a file whose records are an array is an array of
    the same length: at the index of each record it holds the output of
    the record when it validates and [undefined] when it does not. The
    messages of the file are those of the failed records alone. *)
Theorem array_result_is_aligned_with_records config p0 sch changed w items :
  changed = None ∨ changed = Some (normalize env p0)
    ∨ loaded w !! normalize env p0 = None →
  readRecords env (normalize env p0) = VArr items →
  let meta := mkFile (normalize env p0) (VArr items) [] VUndefined in
  ∃ file w' values,
    load env config p0 sch changed w = (Fulfilled file, w')
    ∧ result file = VArr values
    ∧ length values = length items
    ∧ (∀ i item, items !! i = Some item →
         values !! i = Some (match parse_result (sch item [Idx i] meta) with
                             | ParseSuccess data => data
                             | ParseFailure _ => VUndefined
                             end))
    ∧ ((∀ i item, items !! i = Some item →
          ∃ data, parse_result (sch item [Idx i] meta) = ParseSuccess data) →
       messages file = []).
Proof.
  intros Hcase Hr meta.
  destruct (load_fresh env config p0 sch changed w Hcase) as (w' & E & _).
  exists (file_of env sch (normalize env p0)), w',
         (map fst (outcomes sch meta true 0 items)).
  split; [exact E|]. unfold file_of, record_list. cbn. rewrite Hr. cbn. fold meta.
  split; [reflexivity|]. split; [now rewrite length_map, outcomes_length|]. split.
  - intros i item Hi. rewrite list_lookup_fmap, (outcomes_lookup _ _ _ _ 0 i item Hi).
    cbn. unfold item_outcome, item_ctx. now destruct (parse_result _).
  - intros Hall. apply (outcomes_no_messages sch meta true items 0). exact Hall.
Qed.

(** X11. A file whose records are not an array is validated as one record
    with the empty context path. When the record validates, the result of
    the file is its output, and the file contributes the output to its
    collection if it is truthy, or its elements if it is an array; when it
    does not, the result is [undefined], the issues become the messages
    and the file contributes nothing. *)
Theorem single_record_file_contribution config p0 sch changed w :
  changed = None ∨ changed = Some (normalize env p0)
    ∨ loaded w !! normalize env p0 = None →
  isArray (readRecords env (normalize env p0)) = false →
  let p := normalize env p0 in
  let meta := mkFile p (readRecords env p) [] VUndefined in
  ∃ file w',
    load env config p0 sch changed w = (Fulfilled file, w')
    ∧ trace w' = (trace w ++ [FileCreate p; SafeParse p []])%list
    ∧ match parse_result (sch (readRecords env p) [] meta) with
      | ParseSuccess data =>
          result file = data ∧ messages file = []
          ∧ collect [file] = List.filter truthy (spliced data)
      | ParseFailure issues =>
          result file = VUndefined
          ∧ messages file = map (fun issue => mkMessage (issue_message issue)
                                                (join_path (issue_path issue))) issues
          ∧ collect [file] = []
      end.
Proof.
  intros Hcase Harr p meta. subst p.
  destruct (load_fresh env config p0 sch changed w Hcase) as (w' & E & Ht & _).
  exists (file_of env sch (normalize env p0)), w'. split; [exact E|]. split.
  - rewrite Ht. unfold load_events, record_list. now rewrite Harr.
  - unfold file_of, record_list, collect, flatMap. cbn. rewrite Harr. cbn.
    unfold item_outcome, item_ctx. fold meta.
    destruct (parse_result (sch (readRecords env (normalize env p0)) [] meta)); cbn.
    + rewrite app_nil_r. repeat split; reflexivity.
    + rewrite app_nil_r. repeat split; reflexivity.
Qed.

End Hooks.

Section Restarting.

Variable env : Env.

(** X12. For a file that is not of the configuration, the handler deletes
    from [config.cache] exactly the entries whose value is the changed
    file, and nothing else is invalidated: the map [resolved] and the
    cache of files are as they were when the scoped pass starts. The
    handler then ends as that pass does, logging the end of the rebuild or
    the error. *)
Theorem rebuild_drops_cache_entries_of_changed_file config kind name w :
  is_dir_event kind = false →
  is_config_change config (join env (root config) name) = false →
  let filename := join env (root config) name in
  let start := rebuild_start filename w in
  on_all env config kind (Some name) w
    = match resolve env config (Some filename) start with
      | (Fulfilled _, w') => (Fulfilled tt, record [Logged LInfo RebuildFinished] w')
      | (Rejected err, w') => (Fulfilled tt, record [Logged LWarn (Caught err)] w')
      end
  ∧ (∀ key value,
       cache start !! key = Some value ↔ cache w !! key = Some value ∧ value ≠ filename)
  ∧ resolved start = resolved w
  ∧ loaded start = loaded w.
Proof.
  intros Hk Hc filename start. split; [|split; [|split; reflexivity]].
  - assert (Hbody :
      bind (try_catch (on_change env config filename)
                      (fun err => warn (Caught err) >> ret None))
           (fun returned => match returned with
                            | Some options => build env options >> ret tt
                            | None => ret tt
                            end) w
      = match resolve env config (Some filename) start with
        | (Fulfilled _, w') => (Fulfilled tt, record [Logged LInfo RebuildFinished] w')
        | (Rejected err, w') => (Fulfilled tt, record [Logged LWarn (Caught err)] w')
        end).
    { unfold bind at 1, try_catch. rewrite (on_change_rebuild env _ _ _ Hc).
      subst start filename.
      destruct (resolve env config (Some (join env (root config) name))
                  (rebuild_start (join env (root config) name) w)) as [[r|e] w'];
        reflexivity. }
    destruct kind; try discriminate; exact Hbody.
  - intros key value. subst start. cbn. apply map_lookup_filter_Some.
Qed.

(** How a build settles: as the full pass of the configuration it
    resolves does, with the watcher opened after a fulfilled pass when the
    options ask for it, and left as it was otherwise. *)
Lemma build_settles_like_pass options w :
  let config := resolveConfig env (opt_config options) (opt_clean options)
                              (opt_strict options) in
  match build env options w with
  | (Fulfilled result, w') =>
      (resolve env config None w).1 = Fulfilled result
      ∧ watcher w' = match opt_watch options with
                     | Some true => Some config
                     | _ => watcher w
                     end
  | (Rejected err, w') =>
      (resolve env config None w).1 = Rejected err
      ∧ watcher w' = watcher w
  end.
Proof.
  intros config. unfold build. fold config.
  unfold bind, emit, update, ret, log, info, watch.
  destruct (opt_logLevel options), (clean (output config)); cbn;
    match goal with
    | |- context [resolve env config None ?W] =>
        pose proof (resolve_same_watch env config None W) as [Hw _];
        pose proof (oblivious_resolve_full env config W w) as Hob;
        destruct (resolve env config None W) as [[r|e] w1]
    end; cbn in Hw, Hob |- *;
    try (split; [now rewrite <- Hob | exact Hw]);
    destruct (opt_watch options) as [[|]|]; cbn;
    (split; [now rewrite <- Hob | first [reflexivity | exact Hw]]).
Qed.


Lemma deliver_closed evs : ∀ w, watcher w = None → deliver env evs w = w.
Proof.
  induction evs as [|ev evs IH]; intros w Hw; [reflexivity|].
  change (deliver env evs (dispatch env ev w).2 = w).
  unfold dispatch. rewrite Hw. cbn [snd]. now apply IH.
Qed.

(** X14. When the build that restarts after a change of the configuration
    is rejected, the handler is rejected with the same error: the [catch]
    of the handler does not see it, and nothing is logged for it. The
    watcher stays closed, so no later event is handled. *)
Theorem failed_restart_is_not_caught config kind name w err w' :
  is_dir_event kind = false →
  is_config_change config (join env (root config) name) = true →
  build env (restart_options config)
        (restart_start config (join env (root config) name) w) = (Rejected err, w') →
  on_all env config kind (Some name) w = (Rejected err, w')
  ∧ watcher w' = None
  ∧ ∀ evs, deliver env evs w' = w'.
Proof.
  intros Hk Hc Hbuild.
  assert (Hw : watcher w' = None).
  { pose proof (build_settles_like_pass (restart_options config)
                  (restart_start config (join env (root config) name) w)) as H.
    cbv zeta in H. rewrite Hbuild in H. now destruct H as [_ ->]. }
  split; [|split; [exact Hw | intros evs; now apply deliver_closed]].
  assert (Hbody :
    bind (try_catch (on_change env config (join env (root config) name))
                    (fun err => warn (Caught err) >> ret None))
         (fun returned => match returned with
                          | Some options => build env options >> ret tt
                          | None => ret tt
                          end) w = (Rejected err, w')).
  { unfold bind at 1, try_catch. rewrite (on_change_restart env _ _ _ Hc).
    now rewrite (bind_rejected _ _ _ _ _ Hbuild). }
  destruct kind; try discriminate; exact Hbody.
Qed.

End Restarting.

(* ===================================================================== *)
(** ** More on the markdown transform *)
(* ===================================================================== *)

Lemma markdown_leaves_pushed pipeline options value ctx :
  Markdown.meta (Markdown.markdown pipeline options value ctx).2
    = Markdown.pushed options (Markdown.meta ctx).
Proof.
  unfold Markdown.markdown. cbv zeta. now destruct (pipeline _ _ _ _).
Qed.

(** X15. The plugin arrays of the configuration grow with every call of
    the transform: when [config.markdown] holds an array of remark
    plugins, what a call adds to it for the pipeline stays in it, so the
    next call with the same options hands the pipeline the same additions
    twice (with the default options, [remarkGfm] among them); likewise
    for the rehype plugins. An array the configuration does not hold is
    built anew by each call. *)
Theorem markdown_plugins_accumulate
    (pipeline : Markdown.Pipeline) (options : Markdown.MarkdownOptions)
    (value : option string) (ctx : Markdown.Ctx) (md : Markdown.MarkdownOptions) :
  Markdown.config_markdown (Markdown.meta ctx) = Some md →
  let after := Markdown.meta (Markdown.markdown pipeline options value ctx).2 in
  (∀ l, Markdown.remarkPlugins md = Some l →
     ∃ added,
       Markdown.remark_list options (Markdown.meta ctx) = (l ++ added)%list
       ∧ Markdown.remark_list options after = (l ++ added ++ added)%list
       ∧ (Markdown.gfm options = None → Markdown.gfm md = None →
          Markdown.RemarkGfm ∈ added))
  ∧ (∀ l, Markdown.rehypePlugins md = Some l →
     ∃ added,
       Markdown.rehype_list options (Markdown.meta ctx) = (l ++ added)%list
       ∧ Markdown.rehype_list options after = (l ++ added ++ added)%list
       ∧ (Markdown.copyLinkedFiles options = None → Markdown.copyLinkedFiles md = None →
          Markdown.RehypeCopyLinkedFiles ∈ added))
  ∧ (Markdown.remarkPlugins md = None →
     Markdown.remark_list options after
       = Markdown.remark_list options (Markdown.meta ctx))
  ∧ (Markdown.rehypePlugins md = None →
     Markdown.rehype_list options after
       = Markdown.rehype_list options (Markdown.meta ctx)).
Proof.
  intros Hmd after. subst after. rewrite markdown_leaves_pushed.
  destruct ctx as [issues m]. cbn in *. destruct m as [content path cm]. cbn in *.
  subst cm. destruct md as [g r c rp hp]. cbn.
  repeat split.
  - intros l ->. unfold Markdown.remark_list, Markdown.pushed, Markdown.spread. cbn.
    destruct options as [og or oc orp ohp]. cbn.
    exists ((if default true (match og with Some a => Some a | None => g end)
             then [Markdown.RemarkGfm] else [])
            ++ (if default true (match or with Some a => Some a | None => r end)
                then [Markdown.RemarkRemoveComments] else [])
            ++ default [] orp)%list.
    destruct og as [[|]|], g as [[|]|], or as [[|]|], r as [[|]|], orp as [ps|]; cbn;
      rewrite <- ?app_assoc; cbn; rewrite ?app_nil_r;
      (split; [reflexivity|]; split; [reflexivity|]);
      intros H1 H2; try discriminate; rewrite list_elem_of_In; cbn; auto.
  - intros l ->. unfold Markdown.rehype_list, Markdown.pushed, Markdown.spread. cbn.
    destruct options as [og or oc orp ohp]. cbn.
    exists ((if default true (match oc with Some a => Some a | None => c end)
             then [Markdown.RehypeCopyLinkedFiles] else [])
            ++ default [] ohp)%list.
    destruct oc as [[|]|], c as [[|]|], ohp as [ps|]; cbn;
      rewrite <- ?app_assoc; cbn; rewrite ?app_nil_r;
      (split; [reflexivity|]; split; [reflexivity|]);
      intros H1 H2; try discriminate; rewrite list_elem_of_In; cbn; auto.
  - intros ->. reflexivity.
  - intros ->. reflexivity.
Qed.

Example has_comment_values :
  map Markdown.has_comment
      ["<!-- a -->"; "x <!----> y"; "<!-->"; "--> <!--"; "<!-- open"; "<b>"]
    = [true; true; false; false; false; false].
Proof. reflexivity. Qed.

Example remove_comments_of_a_document :
  Markdown.remarkRemoveComments Demo.commented_document
    = Some (Markdown.Parent "root"
              [ Markdown.Parent "paragraph"
                  [ Markdown.Literal "text" "Hello"; Markdown.Literal "html" "<b>" ];
                Markdown.Literal "html" "<!-- unterminated" ]).
Proof. reflexivity. Qed.

Lemma node_induction (P : Markdown.Node → Prop) :
  (∀ type value, P (Markdown.Literal type value)) →
  (∀ type children, Forall P children → P (Markdown.Parent type children)) →
  ∀ node, P node.
Proof.
  intros HL HP. fix IH 1. intros [type value|type children]; [apply HL|].
  apply HP. revert children. fix IHc 1.
  intros [|child children]; constructor; [apply IH | apply IHc].
Qed.

Lemma visit_leaves_comment_free node :
  ∀ kept, Markdown.visit node = Some kept →
          forallb Markdown.comment_free kept = true.
Proof.
  induction node as [type value|type children IH] using node_induction; intros kept; cbn.
  - destruct (Markdown.is_target type && Markdown.has_comment value) eqn:E;
      intros [= <-]; cbn; [reflexivity | now rewrite E].
  - destruct (Markdown.is_target type) eqn:Et; [discriminate|].
    destruct (Markdown.visit_children Markdown.visit children) as [children'|] eqn:E;
      [|discriminate].
    intros [= <-]. cbn. rewrite Et. cbn. rewrite andb_true_r.
    revert children' E. induction IH as [|child rest Hchild _ IHrest]; intros children'; cbn.
    + now intros [= <-].
    + destruct (Markdown.visit child) as [kept|]; [|discriminate].
      destruct (Markdown.visit_children Markdown.visit rest) as [rest'|]; [|discriminate].
      intros [= <-]. rewrite forallb_app, (Hchild kept eq_refl), (IHrest rest' eq_refl).
      reflexivity.
Qed.

Lemma visit_keeps_comment_free node :
  Markdown.comment_free node = true → Markdown.visit node = Some [node].
Proof.
  induction node as [type value|type children IH] using node_induction; cbn.
  - now destruct (Markdown.is_target type && Markdown.has_comment value).
  - destruct (Markdown.is_target type); [discriminate|]. cbn. intros Hc.
    assert (E : Markdown.visit_children Markdown.visit children = Some children).
    { induction IH as [|child rest Hchild _ IHrest]; cbn in *; [reflexivity|].
      apply andb_prop in Hc as [H1 H2].
      now rewrite (Hchild H1), (IHrest H2). }
    now rewrite E.
Qed.

Lemma visit_children_keeps_comment_free children :
  forallb Markdown.comment_free children = true →
  Markdown.visit_children Markdown.visit children = Some children.
Proof.
  induction children as [|child rest IH]; cbn; [reflexivity|].
  intros Hc. apply andb_prop in Hc as [H1 H2].
  now rewrite (visit_keeps_comment_free child H1), (IH H2).
Qed.

(** X16. When the removal of comments returns, no html or jsx node of the
    tree it leaves, at any depth, holds a comment. *)
Theorem remove_comments_leaves_no_comment tree tree' :
  Markdown.remarkRemoveComments tree = Some tree' →
  Markdown.comment_free tree' = true.
Proof.
  destruct tree as [type value|type children]; cbn.
  - destruct (Markdown.is_target type && Markdown.has_comment value) eqn:E;
      [discriminate|]. intros [= <-]. cbn. now rewrite E.
  - pose proof (visit_leaves_comment_free (Markdown.Parent type children)) as H.
    cbn in H. destruct (Markdown.is_target type); [discriminate|].
    destruct (Markdown.visit_children Markdown.visit children) as [children'|];
      [|discriminate].
    intros [= <-]. specialize (H _ eq_refl). cbn in H.
    now rewrite andb_true_r in H.
Qed.

(** X17. The removal of comments leaves a tree without comments exactly as
    it is; so removing the comments of a tree twice gives what removing
    them once gives. *)
Theorem remove_comments_is_idempotent tree :
  (Markdown.comment_free tree = true → Markdown.remarkRemoveComments tree = Some tree)
  ∧ ∀ tree', Markdown.remarkRemoveComments tree = Some tree' →
             Markdown.remarkRemoveComments tree' = Some tree'.
Proof.
  assert (Hid : ∀ t, Markdown.comment_free t = true →
                     Markdown.remarkRemoveComments t = Some t).
  { intros [type value|type children]; cbn.
    - now destruct (Markdown.is_target type && Markdown.has_comment value).
    - destruct (Markdown.is_target type); [discriminate|]. cbn. intros Hc.
      now rewrite (visit_children_keeps_comment_free children Hc). }
  split; [apply Hid|].
  intros tree' H. apply Hid.
  destruct tree as [type value|type children]; cbn in H.
  - destruct (Markdown.is_target type && Markdown.has_comment value) eqn:E;
      [discriminate|]. injection H as <-. cbn. now rewrite E.
  - pose proof (visit_leaves_comment_free (Markdown.Parent type children)) as Hv.
    cbn in Hv. destruct (Markdown.is_target type); [discriminate|].
    destruct (Markdown.visit_children Markdown.visit children) as [children'|];
      [|discriminate].
    injection H as <-. specialize (Hv _ eq_refl). cbn in Hv.
    now rewrite andb_true_r in Hv.
Qed.

(* ===================================================================== *)
(** ** More concrete instances *)
(* ===================================================================== *)


Lemma aggregation_without_single_never_throws_witness :
  ∃ result w2,
    aggregate Demo.posts_config
      [("posts", [file_of Demo.demo_env Demo.titled_schema Demo.posts_path])]
      (resolve_files Demo.demo_env Demo.posts_config None Demo.empty_world).2
    = (Fulfilled result, w2).
Proof.
  apply (aggregation_without_single_never_throws Demo.demo_env Demo.posts_config None
           Demo.empty_world).
  - intros entry Hin. apply list_elem_of_In in Hin. cbn in Hin.
    destruct Hin as [<-|[]]. reflexivity.
  - vm_compute. reflexivity.
Defined.


Lemma resolved_holds_entries_of_pass_witness :
  map fst (pass_entries Demo.demo_env Demo.strict_blog_config None Demo.empty_world)
    = ["posts"; "about"]
  ∧ ∀ name files,
      (name, files) ∈ pass_entries Demo.demo_env Demo.strict_blog_config None Demo.empty_world →
      resolved (resolve Demo.demo_env Demo.strict_blog_config None Demo.empty_world).2 !! name
        = Some files.
Proof.
  apply (resolved_holds_entries_of_pass Demo.demo_env Demo.strict_blog_config None
           Demo.empty_world).
  apply (bool_decide_unpack _). vm_compute. exact I.
Defined.

Lemma unrelated_change_resolves_nothing_witness :
  resolve_entries Demo.demo_env Demo.blog_config (Some "/site/content/numbers.json")
                  Demo.warm_world
    = (Fulfilled [("posts", default [] (resolved Demo.warm_world !! "posts"));
                  ("about", default [] (resolved Demo.warm_world !! "about"))],
       record [Logged LLog (SkippedResolve "posts"); Logged LLog (SkippedResolve "about")]
              Demo.warm_world)
  ∧ List.filter is_work
      (trace (resolve_entries Demo.demo_env Demo.blog_config
                 (Some "/site/content/numbers.json") Demo.warm_world).2)
    = List.filter is_work (trace Demo.warm_world).
Proof.
  apply (unrelated_change_resolves_nothing Demo.demo_env Demo.blog_config
           "/site/content/numbers.json" Demo.warm_world).
  intros entry Hin. apply list_elem_of_In in Hin. cbn in Hin.
  destruct Hin as [<-|[<-|[]]];
    (split; [vm_compute; reflexivity | apply (bool_decide_unpack _); vm_compute; exact I]).
Defined.

Lemma rescan_reloads_only_changed_file_witness :
  ∃ w',
    rescan Demo.demo_env Demo.pages_config (Some Demo.about_path) "pages" Demo.pages
           Demo.warm_pages
      = (Fulfilled ("pages", [file_of Demo.demo_env Demo.titled_schema Demo.posts_path;
                              file_of Demo.demo_env Demo.titled_schema Demo.about_path]), w')
    ∧ trace w' =
        (trace Demo.warm_pages
           ++ GlobCall ["posts.json"; "about.json"] "/site/content"
           :: [FileCreate Demo.about_path; SafeParse Demo.about_path []]
           ++ [Logged LLog (ResolveFiles 2 ["posts.json"; "about.json"])])%list
    ∧ resolved w' =
        <["pages" := [file_of Demo.demo_env Demo.titled_schema Demo.posts_path;
                      file_of Demo.demo_env Demo.titled_schema Demo.about_path]]>
          (resolved Demo.warm_pages).
Proof.
  apply (rescan_reloads_only_changed_file Demo.demo_env Demo.pages_config Demo.about_path
           "pages" Demo.pages (file_of Demo.demo_env Demo.titled_schema) Demo.warm_pages).
  intros p Hin Hne. apply list_elem_of_In in Hin. cbn in Hin.
  destruct Hin as [<-|[<-|[]]].
  - vm_compute. reflexivity.
  - exfalso. apply Hne. reflexivity.
Defined.

Lemma pass_without_diagnostics_is_not_gated_witness :
  resolve_files Demo.demo_env Demo.strict_about_config None Demo.empty_world
    = gather Demo.demo_env Demo.strict_about_config None Demo.empty_world.
Proof.
  apply (pass_without_diagnostics_is_not_gated Demo.demo_env Demo.strict_about_config None
           Demo.empty_world demo_reporter_quiet).
  intros (file & Hin & Hm). apply list_elem_of_In in Hin. vm_compute in Hin.
  destruct Hin as [<-|[]]. apply Hm. reflexivity.
Defined.

Lemma prepare_failure_prevents_output_witness :
  resolve Demo.demo_env Demo.throwing_prepare_config None Demo.empty_world
    = (Rejected "prepare failed",
       record [PrepareCall {[ "about" := VObj [("title", VStr "about")] ]}]
         (aggregate Demo.throwing_prepare_config
            [("about", [file_of Demo.demo_env Demo.titled_schema Demo.about_path])]
            (resolve_files Demo.demo_env Demo.throwing_prepare_config None
               Demo.empty_world).2).2).
Proof.
  apply (prepare_failure_prevents_output Demo.demo_env Demo.throwing_prepare_config None
           Demo.empty_world
           [("about", [file_of Demo.demo_env Demo.titled_schema Demo.about_path])]
           (resolve_files Demo.demo_env Demo.throwing_prepare_config None Demo.empty_world).2
           {[ "about" := VObj [("title", VStr "about")] ]} _
           (fun _ => HookThrows "prepare failed") "prepare failed").
  - vm_compute. reflexivity.
  - vm_compute. reflexivity.
  - reflexivity.
  - reflexivity.
Defined.

Lemma complete_failure_comes_after_output_witness :
  ∃ w' evs,
    resolve Demo.demo_env Demo.throwing_complete_config None Demo.empty_world
      = (Rejected "complete failed", w')
    ∧ trace w' =
        (trace (aggregate Demo.throwing_complete_config
                  [("about", [file_of Demo.demo_env Demo.titled_schema Demo.about_path])]
                  (resolve_files Demo.demo_env Demo.throwing_complete_config None
                     Demo.empty_world).2).2 ++ evs)%list
    ∧ existsb is_output_data evs = true
    ∧ (true = true →
       OutputData "/site/.velite" {[ "about" := VObj [("title", VStr "about")] ]} ∈ evs)
    ∧ OutputAssets "/site/public/static" ∅ ∈ evs
    ∧ last evs = Some (CompleteCall {[ "about" := VObj [("title", VStr "about")] ]}).
Proof.
  apply (complete_failure_comes_after_output Demo.demo_env Demo.throwing_complete_config
           None Demo.empty_world
           [("about", [file_of Demo.demo_env Demo.titled_schema Demo.about_path])]
           (resolve_files Demo.demo_env Demo.throwing_complete_config None Demo.empty_world).2
           {[ "about" := VObj [("title", VStr "about")] ]}
           (aggregate Demo.throwing_complete_config
              [("about", [file_of Demo.demo_env Demo.titled_schema Demo.about_path])]
              (resolve_files Demo.demo_env Demo.throwing_complete_config None
                 Demo.empty_world).2).2
           true (fun _ => HookThrows "complete failed") "complete failed").
  - vm_compute. reflexivity.
  - vm_compute. reflexivity.
  - reflexivity.
  - reflexivity.
  - reflexivity.
Defined.

Lemma array_result_is_aligned_with_records_witness :
  ∃ file w' values,
    load Demo.demo_env Demo.blog_config Demo.posts_path Demo.titled_schema None
         Demo.empty_world = (Fulfilled file, w')
    ∧ result file = VArr values
    ∧ length values = 3
    ∧ (∀ i item,
         [VObj [("title", VStr "a")]; VObj []; VObj [("title", VStr "b")]] !! i = Some item →
         values !! i
           = Some (match parse_result
                           (Demo.titled_schema item [Idx i]
                              (mkFile Demo.posts_path
                                 (VArr [VObj [("title", VStr "a")]; VObj [];
                                        VObj [("title", VStr "b")]]) [] VUndefined)) with
                   | ParseSuccess data => data
                   | ParseFailure _ => VUndefined
                   end))
    ∧ ((∀ i item,
          [VObj [("title", VStr "a")]; VObj []; VObj [("title", VStr "b")]] !! i = Some item →
          ∃ data, parse_result
                    (Demo.titled_schema item [Idx i]
                       (mkFile Demo.posts_path
                          (VArr [VObj [("title", VStr "a")]; VObj [];
                                 VObj [("title", VStr "b")]]) [] VUndefined))
                  = ParseSuccess data) →
       messages file = []).
Proof.
  apply (array_result_is_aligned_with_records Demo.demo_env Demo.blog_config
           Demo.posts_path Demo.titled_schema None Demo.empty_world
           [VObj [("title", VStr "a")]; VObj []; VObj [("title", VStr "b")]]).
  - left. reflexivity.
  - vm_compute. reflexivity.
Defined.

Lemma single_record_file_contribution_witness :
  ∃ file w',
    load Demo.demo_env Demo.site_config Demo.site_path Demo.titled_schema None
         Demo.empty_world = (Fulfilled file, w')
    ∧ trace w' = [FileCreate Demo.site_path; SafeParse Demo.site_path []]
    ∧ result file = VUndefined
    ∧ messages file = [mkMessage "Required" "title"]
    ∧ collect [file] = [].
Proof.
  destruct (single_record_file_contribution Demo.demo_env Demo.site_config Demo.site_path
              Demo.titled_schema None Demo.empty_world)
    as (file & w' & E & Ht & H).
  - left. reflexivity.
  - vm_compute. reflexivity.
  - exists file, w'. split; [exact E|]. split; [exact Ht|]. exact H.
Defined.

Lemma rebuild_drops_cache_entries_of_changed_file_witness :
  (cache (rebuild_start Demo.posts_path Demo.keyed_world) !! "schemas:slug:global:about"
     = Some Demo.about_path
   ↔ cache Demo.keyed_world !! "schemas:slug:global:about" = Some Demo.about_path
     ∧ Demo.about_path ≠ Demo.posts_path)
  ∧ (cache (rebuild_start Demo.posts_path Demo.keyed_world) !! "schemas:slug:global:a"
       = Some Demo.posts_path
     ↔ cache Demo.keyed_world !! "schemas:slug:global:a" = Some Demo.posts_path
       ∧ Demo.posts_path ≠ Demo.posts_path)
  ∧ resolved (rebuild_start Demo.posts_path Demo.keyed_world) = resolved Demo.keyed_world.
Proof.
  destruct (rebuild_drops_cache_entries_of_changed_file Demo.demo_env Demo.blog_config
              EvChange "posts.json" Demo.keyed_world eq_refl eq_refl)
    as (_ & Hcache & Hresolved & _).
  split; [apply Hcache | split; [apply Hcache | exact Hresolved]].
Defined.

Lemma failed_restart_is_not_caught_witness :
  on_all Demo.broken_config_env Demo.blog_config EvChange (Some "site.json") Demo.slug_world
    = (Rejected "no data resolved for 'site'",
       (build Demo.broken_config_env (restart_options Demo.blog_config)
          (restart_start Demo.blog_config Demo.site_path Demo.slug_world)).2)
  ∧ watcher (build Demo.broken_config_env (restart_options Demo.blog_config)
               (restart_start Demo.blog_config Demo.site_path Demo.slug_world)).2 = None
  ∧ ∀ evs,
      deliver Demo.broken_config_env evs
        (build Demo.broken_config_env (restart_options Demo.blog_config)
           (restart_start Demo.blog_config Demo.site_path Demo.slug_world)).2
      = (build Demo.broken_config_env (restart_options Demo.blog_config)
           (restart_start Demo.blog_config Demo.site_path Demo.slug_world)).2.
Proof.
  apply (failed_restart_is_not_caught Demo.broken_config_env Demo.blog_config EvChange
           "site.json" Demo.slug_world).
  - reflexivity.
  - reflexivity.
  - vm_compute. reflexivity.
Defined.

Lemma markdown_plugins_accumulate_witness :
  ∃ added,
    Markdown.remark_list (Markdown.mkMarkdownOptions None None None None None)
      (Markdown.meta Demo.configured_ctx)
      = ([Markdown.UserPlugin "remark-math"] ++ added)%list
    ∧ Markdown.remark_list (Markdown.mkMarkdownOptions None None None None None)
        (Markdown.meta
           (Markdown.markdown Demo.failing_pipeline
              (Markdown.mkMarkdownOptions None None None None None) (Some "# Title")
              Demo.configured_ctx).2)
      = ([Markdown.UserPlugin "remark-math"] ++ added ++ added)%list
    ∧ (@None bool = None → @None bool = None → Markdown.RemarkGfm ∈ added).
Proof.
  destruct (markdown_plugins_accumulate Demo.failing_pipeline
              (Markdown.mkMarkdownOptions None None None None None) (Some "# Title")
              Demo.configured_ctx
              (Markdown.mkMarkdownOptions None None None
                 (Some [Markdown.UserPlugin "remark-math"]) (Some [])) eq_refl)
    as (Hremark & _).
  exact (Hremark [Markdown.UserPlugin "remark-math"] eq_refl).
Defined.

Lemma remove_comments_leaves_no_comment_witness :
  Markdown.comment_free
    (Markdown.Parent "root"
       [ Markdown.Parent "paragraph"
           [ Markdown.Literal "text" "Hello"; Markdown.Literal "html" "<b>" ];
         Markdown.Literal "html" "<!-- unterminated" ]) = true.
Proof.
  apply (remove_comments_leaves_no_comment Demo.commented_document). reflexivity.
Defined.

Lemma remove_comments_is_idempotent_witness :
  Markdown.remarkRemoveComments
    (Markdown.Parent "root"
       [ Markdown.Parent "paragraph"
           [ Markdown.Literal "text" "Hello"; Markdown.Literal "html" "<b>" ];
         Markdown.Literal "html" "<!-- unterminated" ])
  = Some (Markdown.Parent "root"
            [ Markdown.Parent "paragraph"
                [ Markdown.Literal "text" "Hello"; Markdown.Literal "html" "<b>" ];
              Markdown.Literal "html" "<!-- unterminated" ]).
Proof.
  destruct (remove_comments_is_idempotent Demo.commented_document) as [_ Hidem].
  apply Hidem. reflexivity.
Defined.
